(** * Best-response dynamic programme of strategic-trading

    A shallow embedding of [BestResponseDynamics/BR.py], the cost
    functional [total_cost] and the backward-induction optimiser
    [best_respond], and of the metrics of the learning dynamics in
    [NoRegretDynamics/helpers.py] ([regret], [swap_regret],
    [marginal_cost], [dist_to_nash], [welfare]), followed by the
    properties proved about them.

    Conventions of the embedding.
    - Python integers ([V], [T], the trade limits, loop counters, table
      indices) are [Z].
    - numpy [float64] values (costs, [kappa], the entries of [bnow]) are
      exact rationals [Q]; [np.inf] is a separate constructor.  Rounding
      is not modelled.
    - [dpaction] and [anow] are float arrays in the source but only ever
      hold the integers the code stores in them, so their cells are [Z]
      and [int(volrem)] is the identity.
    - Indexing follows numpy: a negative index counts from the end of the
      axis, an index outside [-n, n) raises [IndexError].  A negative
      dimension passed to [np.full] / [np.zeros] raises [ValueError]. *)

From Stdlib Require Import ZArith QArith Lqa Lia List.
From stdpp Require Import base list numbers.

Open Scope Z_scope.

(** ** Exceptions *)

Inductive exn : Type := IndexError | ValueError.

Inductive res (A : Type) : Type :=
| Ret (a : A)
| Raise (e : exn).
Arguments Ret {A} a.
Arguments Raise {A} e.

Definition rbind {A B : Type} (m : res A) (k : A -> res B) : res B :=
  match m with
  | Ret a => k a
  | Raise e => Raise e
  end.

Notation "x <- m ;; k" := (rbind m (fun x => k))
  (at level 100, m at next level, right associativity).

(** A [for] loop over a list whose body can raise. *)
Fixpoint foldM {S X : Type} (body : S -> X -> res S) (xs : list X) (st : S)
  : res S :=
  match xs with
  | [] => Ret st
  | x :: xs' => st' <- body st x ;; foldM body xs' st'
  end.

(** ** Python and numpy containers *)

(** [range(lo, hi)]. *)
Definition range (lo hi : Z) : list Z := seqZ lo (hi - lo).

(** Position addressed by index [i] on an axis of length [n]. *)
Definition norm_index (n : nat) (i : Z) : res nat :=
  if bool_decide (0 <= i < Z.of_nat n) then Ret (Z.to_nat i)
  else if bool_decide (- Z.of_nat n <= i < 0) then Ret (Z.to_nat (i + Z.of_nat n))
  else Raise IndexError.

(** [l[i]] *)
Definition getitem {A : Type} (l : list A) (i : Z) : res A :=
  k <- norm_index (length l) i ;;
  match l !! k with
  | Some x => Ret x
  | None => Raise IndexError
  end.

(** [l[i] = x] *)
Definition setitem {A : Type} (l : list A) (i : Z) (x : A) : res (list A) :=
  k <- norm_index (length l) i ;;
  Ret (<[k := x]> l).

(** [m[r, c]] *)
Definition getitem2 {A : Type} (m : list (list A)) (r c : Z) : res A :=
  row <- getitem m r ;;
  getitem row c.

(** [m[r, c] = x] *)
Definition setitem2 {A : Type} (m : list (list A)) (r c : Z) (x : A)
  : res (list (list A)) :=
  row <- getitem m r ;;
  row' <- setitem row c x ;;
  setitem m r row'.

(** [l[:k]] *)
Definition slice_to {A : Type} (l : list A) (k : Z) : list A :=
  if bool_decide (k < 0) then take (Z.to_nat (Z.of_nat (length l) + k)) l
  else take (Z.to_nat k) l.

(** [np.sum] *)
Definition np_sum (l : list Q) : Q := foldr Qplus 0%Q l.

(** [np.full((rows, cols), v)] *)
Definition np_full {A : Type} (rows cols : Z) (v : A) : res (list (list A)) :=
  if bool_decide (rows < 0 \/ cols < 0) then Raise ValueError
  else Ret (replicate (Z.to_nat rows) (replicate (Z.to_nat cols) v)).

(** [np.zeros(n)] *)
Definition np_zeros (n : Z) : res (list Z) :=
  if bool_decide (n < 0) then Raise ValueError
  else Ret (replicate (Z.to_nat n) 0).

(** ** Costs with the [np.inf] sentinel *)

Inductive cost : Type :=
| Fin (x : Q)
| Inf.

(** [c + x] for a finite [x]. *)
Definition cost_add (c : cost) (x : Q) : cost :=
  match c with
  | Fin y => Fin (y + x)
  | Inf => Inf
  end.

(** [c1 < c2] *)
Definition cost_ltb (c1 c2 : cost) : bool :=
  match c1, c2 with
  | Fin x, Fin y => negb (Qle_bool y x)
  | Fin _, Inf => true
  | Inf, _ => false
  end.

(** ** [total_cost] *)

(** [np.array([np.sum(x[:i]) for i in range(len(x))])] *)
Definition cumulative_before (x : list Q) : list Q :=
  (fun i => np_sum (slice_to x i)) <$> range 0 (Z.of_nat (length x)).

(** Body of the accumulation loop (source line 113). *)
Definition charge (anow bnow : list Q) (kappa : Q) (a b : list Q)
    (total_cost : Q) (t : Z) : res Q :=
  at_ <- getitem anow t ;;
  bt <- getitem bnow t ;;
  ca <- getitem a t ;;
  cb <- getitem b t ;;
  Ret (total_cost + (((at_ + bt) * at_) + (kappa * (ca + cb) * at_)))%Q.

Definition total_cost (anow bnow : list Q) (kappa : Q) : res Q :=
  let a := cumulative_before anow in
  let b := cumulative_before bnow in
  foldM (charge anow bnow kappa a b) (range 0 (Z.of_nat (length anow))) 0%Q.

(** ** [best_respond] *)

Record tables : Type := Tables {
  dptable : list (list cost);
  dpaction : list (list Z)
}.

Section BestRespond.

Variables (V : Z) (bnow : list Q) (T : Z) (kappa : Q).
Variables (lower_limit upper_limit : Z).

(** cumulative shares held by the opponent, inclusive of the step *)
Definition cumulative_through : list Q :=
  (fun i => np_sum (slice_to bnow (i + 1))) <$> range 0 T.

Definition min_remaining (t : Z) : Z := V - upper_limit * t.
Definition max_remaining (t : Z) : Z := V - lower_limit * t.

Definition s_size : Z := max_remaining T - min_remaining T + 1.

Definition s_to_index (s : Z) : Z := s - min_remaining T.

(** Body of the initialisation loop (source lines 48-52). *)
Definition last_step (tb : tables) (s : Z) : res tables :=
  if bool_decide (lower_limit <= s <= upper_limit) then
    let i := s_to_index s in
    bl <- getitem bnow (T - 1) ;;
    bp <- getitem cumulative_through (T - 2) ;;
    dpt <- setitem2 (dptable tb) (T - 1) i
             (Fin (inject_Z s * ((inject_Z s + bl)
                                 + kappa * (inject_Z (V - s) + bp)))%Q) ;;
    dpa <- setitem2 (dpaction tb) (T - 1) i s ;;
    Ret (Tables dpt dpa)
  else Ret tb.

(** The candidate cost [thisval] of trading [q] in state [(t, s)]
    (source lines 62-70). *)
Definition thisval (dpt : list (list cost)) (t s q : Z) : res cost :=
  let next_s := s - q in
  let next_i := s_to_index next_s in
  if bool_decide (t = 0) then
    nxt <- getitem2 dpt (t + 1) next_i ;;
    bt <- getitem bnow t ;;
    Ret (cost_add nxt (inject_Z q * (inject_Z q + bt))%Q)
  else
    nxt <- getitem2 dpt (t + 1) next_i ;;
    bt <- getitem bnow t ;;
    bp <- getitem cumulative_through (t - 1) ;;
    Ret (cost_add nxt (inject_Z q * ((inject_Z q + bt)
                                     + kappa * (inject_Z (V - s) + bp)))%Q).

(** Body of the loop over [q] (source lines 61-75); the loop state is
    the tables and [mincost]. *)
Definition try_q (t s : Z) (st : tables * cost) (q : Z)
  : res (tables * cost) :=
  let i := s_to_index s in
  v <- thisval (dptable st.1) t s q ;;
  if cost_ltb v st.2 then
    dpt <- setitem2 (dptable st.1) t i v ;;
    dpa <- setitem2 (dpaction st.1) t i q ;;
    Ret (Tables dpt dpa, v)
  else Ret st.

(** Body of the loop over [s] (source lines 56-75). *)
Definition state_step (t : Z) (tb : tables) (s : Z) : res tables :=
  st <- foldM (try_q t s) (range lower_limit (upper_limit + 1)) (tb, Inf) ;;
  Ret st.1.

(** Body of the loop over [t] (source lines 55-75). *)
Definition time_step (tb : tables) (t : Z) : res tables :=
  foldM (state_step t) (range (min_remaining t) (max_remaining t + 1)) tb.

(** Tables after initialisation and backward induction
    (source lines 40-75). *)
Definition populate : res tables :=
  dpt0 <- np_full T s_size Inf ;;
  dpa0 <- np_full T s_size 0 ;;
  tb1 <- foldM last_step (range (min_remaining T) (max_remaining T + 1))
           (Tables dpt0 dpa0) ;;
  foldM time_step (rev (range 0 (T - 1))) tb1.

(** Body of the reconstruction loop (source lines 82-85); the loop
    state is [anow] and [volrem]. *)
Definition traverse (tb : tables) (st : list Z * Z) (t : Z)
  : res (list Z * Z) :=
  let i := s_to_index st.2 in
  q <- getitem2 (dpaction tb) t i ;;
  anow <- setitem st.1 t q ;;
  Ret (anow, st.2 - q).

Definition best_respond : res (list Z) :=
  tb <- populate ;;
  anow0 <- np_zeros T ;;
  st <- foldM (traverse tb) (range 0 T) (anow0, V) ;;
  Ret st.1.

End BestRespond.

(** ** The cost formula of the specification

    [cost_formula kappa A B a b] is the sum over the steps of
    [(a[t] + b[t]) * a[t] + kappa * (A[t] + B[t]) * a[t]], where [A] and
    [B] are the quantities traded strictly before the step; they start at
    the given values and grow by the trade of each step. *)
Fixpoint cost_formula (kappa A B : Q) (a b : list Q) : Q :=
  match a, b with
  | x :: a', y :: b' =>
      (((x + y) * x + kappa * (A + B) * x)
       + cost_formula kappa (A + x) (B + y) a' b')%Q
  | _, _ => 0%Q
  end.

(** ** The recursion that the tables tabulate

    [value k s] is the pair (cost, action) that backward induction
    assigns to the state with [s] shares remaining when [k] steps follow
    the current one, that is at step [t = T - 1 - k]. *)
Section ValueFunction.

Variables (V : Z) (bnow : list Q) (T : Z) (kappa : Q).
Variables (lower_limit upper_limit : Z).

Definition bnow_at (t : Z) : Q := default 0%Q (bnow !! Z.to_nat t).

(** What the optimiser reads as [b[t-1]]: the opponent's trades
    before step [t]. *)
Definition opponent_before (t : Z) : Q := np_sum (slice_to bnow t).

(** Cost written by the initialisation loop for state [s]; for [T = 1]
    the index [T - 2 = -1] addresses the only entry of [b]. *)
Definition last_cost (s : Z) : Q :=
  (inject_Z s * ((inject_Z s + bnow_at (T - 1))
                 + kappa * (inject_Z (V - s)
                            + opponent_before
                                (if bool_decide (T = 1) then 1 else T - 1)%Z)))%Q.

(** Immediate cost of trading [q] in state [(t, s)], [t < T - 1]. *)
Definition step_cost (t s q : Z) : Q :=
  if bool_decide (t = 0) then (inject_Z q * (inject_Z q + bnow_at t))%Q
  else (inject_Z q * ((inject_Z q + bnow_at t)
                      + kappa * (inject_Z (V - s) + opponent_before t)))%Q.

(** One iteration of the scan over [q]: a candidate replaces the
    running minimum only when strictly cheaper. *)
Definition pick (cand : Z -> cost) (acc : cost * Z) (q : Z) : cost * Z :=
  if cost_ltb (cand q) acc.1 then (cand q, q) else acc.

Definition best (cand : Z -> cost) : cost * Z :=
  foldl (pick cand) (Inf, 0) (range lower_limit (upper_limit + 1)).

Fixpoint value (k : nat) (s : Z) : cost * Z :=
  match k with
  | O => if bool_decide (lower_limit <= s <= upper_limit)
         then (Fin (last_cost s), s) else (Inf, 0)
  | S k' => best (fun q => cost_add (value k' (s - q)).1
                                    (step_cost (T - 1 - Z.of_nat k) s q))
  end.

(** The trades read off the action table from state [s] with [k]
    steps to follow. *)
Fixpoint policy (k : nat) (s : Z) : list Z :=
  let q := (value k s).2 in
  match k with
  | O => [q]
  | S k' => q :: policy k' (s - q)
  end.

(** Cost that the recursion charges to a sequence of trades started in
    state [s] with [k] steps to follow. *)
Fixpoint run_cost (k : nat) (s : Z) (a : list Z) : Q :=
  match k, a with
  | O, _ => last_cost s
  | S k', q :: a' =>
      (step_cost (T - 1 - Z.of_nat k) s q + run_cost k' (s - q) a')%Q
  | S _, [] => 0%Q
  end.

End ValueFunction.

(** ** Feasibility and order on costs *)

Definition sumZ (l : list Z) : Z := foldr Z.add 0 l.

(** A trajectory of [T] trades within the limits that acquires [V]. *)
Definition feasible (V T lower_limit upper_limit : Z) (a : list Z) : Prop :=
  Z.of_nat (length a) = T /\
  Forall (fun q => lower_limit <= q <= upper_limit) a /\
  sumZ a = V.

Definition cost_le (c1 c2 : cost) : Prop :=
  match c1, c2 with
  | Fin x, Fin y => (x <= y)%Q
  | _, Inf => True
  | Inf, Fin _ => False
  end.

Definition is_fin (c : cost) : Prop :=
  match c with Fin _ => True | Inf => False end.

(** Shape of a two-dimensional array and its cells at non-negative
    positions. *)
Definition shaped {A : Type} (rows cols : nat) (m : list (list A)) : Prop :=
  length m = rows /\ Forall (fun row => length row = cols) m.

Definition cell {A : Type} (m : list (list A)) (r c : Z) : option A :=
  row ← m !! Z.to_nat r; row !! Z.to_nat c.

(** ** Invariants of the tables *)

Section TableInvariants.

Variables (V : Z) (bnow : list Q) (T : Z) (kappa : Q).
Variables (lower_limit upper_limit : Z).

Definition well_shaped (tb : tables) : Prop :=
  shaped (Z.to_nat T) (Z.to_nat (s_size V T lower_limit upper_limit))
    (dptable tb) /\
  shaped (Z.to_nat T) (Z.to_nat (s_size V T lower_limit upper_limit))
    (dpaction tb).

(** Position [(t, s)] is a cell of the tables. *)
Definition in_table (t s : Z) : Prop :=
  0 <= t < T /\
  0 <= s_to_index V T upper_limit s < s_size V T lower_limit upper_limit.

(** Cost and action stored for state [(t, s)]. *)
Definition entry (tb : tables) (t s : Z) : option (cost * Z) :=
  c ← cell (dptable tb) t (s_to_index V T upper_limit s);
  a ← cell (dpaction tb) t (s_to_index V T upper_limit s);
  Some (c, a).

(** [tb'] differs from [tb] at most at state [(t, s)]. *)
Definition same_except (t s : Z) (tb tb' : tables) : Prop :=
  well_shaped tb' /\
  forall t' s', in_table t' s' -> (t', s') <> (t, s) ->
                entry tb' t' s' = entry tb t' s'.

(** The tables hold the recursion on the states in [P] and the initial
    fill everywhere else. *)
Definition tabulates (P : Z -> Z -> Prop) (tb : tables) : Prop :=
  well_shaped tb /\
  forall t s, in_table t s ->
    (P t s ->
     entry tb t s
     = Some (value V bnow T kappa lower_limit upper_limit
               (Z.to_nat (T - 1 - t)) s)) /\
    (~ P t s -> entry tb t s = Some (Inf, 0)).

(** The window of remaining shares at step [t]. *)
Definition in_window (t s : Z) : Prop :=
  min_remaining V upper_limit t <= s <= max_remaining V lower_limit t.

End TableInvariants.

(** ** Statements of the specification that the code does not satisfy

    They are written as the specification words them, to be refuted on
    concrete inputs. *)


(** "For every reachable (t, s) the recorded action q satisfies
    lower_limit <= q <= upper_limit, and s - q lands on a state reachable
    (and, if t + 1 < T, survivable) at step t + 1.  The terminal step
    forces q = s exactly."  Reachable means inside the window of the
    step; survivable means that the cost stored for the state is
    finite. *)
Definition recorded_actions_valid (V : Z) (bnow : list Q) (T : Z) (kappa : Q)
    (lower_limit upper_limit : Z) : Prop :=
  forall tb, populate V bnow T kappa lower_limit upper_limit = Ret tb ->
  forall t s, 0 <= t < T -> in_window V lower_limit upper_limit t s ->
  exists q,
    getitem2 (dpaction tb) t (s_to_index V T upper_limit s) = Ret q /\
    lower_limit <= q <= upper_limit /\
    in_window V lower_limit upper_limit (t + 1) (s - q) /\
    (t + 1 < T ->
     exists c, getitem2 (dptable tb) (t + 1)
                 (s_to_index V T upper_limit (s - q)) = Ret (Fin c)) /\
    (t = T - 1 -> q = s).

(** ** Kinds of failure *)

(** The computation raises nothing but [IndexError]. *)
Definition only_index {A : Type} (m : res A) : Prop :=
  forall e, m = Raise e -> e = IndexError.

(** ** The learning-dynamics metrics ([NoRegretDynamics/helpers.py])

    The metrics call [best_respond] and [total_cost] on histories of
    trajectories.  A history is a list of rows; a trajectory returned by
    [best_respond] enters [total_cost] through [inject_Z].  Besides the
    exceptions of the core they can raise [TypeError] and
    [ZeroDivisionError]. *)

Inductive pyexn : Type :=
| CoreError (e : exn)
| TypeError
| ZeroDivisionError.

Inductive pyres (A : Type) : Type :=
| Return (a : A)
| Throw (e : pyexn).
Arguments Return {A} a.
Arguments Throw {A} e.

Definition pbind {A B : Type} (m : pyres A) (k : A -> pyres B) : pyres B :=
  match m with
  | Return a => k a
  | Throw e => Throw e
  end.

Notation "x <~ m ;; k" := (pbind m (fun x => k))
  (at level 100, m at next level, right associativity).

(** A call into the core. *)
Definition lift {A : Type} (m : res A) : pyres A :=
  match m with
  | Ret a => Return a
  | Raise e => Throw (CoreError e)
  end.

Fixpoint pfoldM {S X : Type} (body : S -> X -> pyres S) (xs : list X) (st : S)
  : pyres S :=
  match xs with
  | [] => Return st
  | x :: xs' => st' <~ body st x ;; pfoldM body xs' st'
  end.

(** [[f(x) for x in xs]] for an [f] that can raise. *)
Fixpoint gather {X Y : Type} (f : X -> res Y) (xs : list X) : res (list Y) :=
  match xs with
  | [] => Ret []
  | x :: xs' => y <- f x ;; ys <- gather f xs' ;; Ret (y :: ys)
  end.

(** *** [regret] *)

(** [np.add.reduce] of at least one row, all of one length: the rows
    added entry by entry, from the first on. *)
Definition add_reduce (row : list Q) (rest : list (list Q)) : list Q :=
  foldl (zip_with Qplus) row rest.

Definition same_length (row : list Q) (rest : list (list Q)) : bool :=
  forallb (fun row' => Nat.eqb (length row') (length row)) rest.

(** [regret] on an empty history.  [np.add.reduce([])] is the scalar
    [0.0] and [0.0 / 0] is [nan], still a scalar, so [bnow_r] cannot be
    indexed: [best_respond] raises [ValueError] from [np.full] when
    [T < 0], [IndexError] from [bnow[:i+1]] (line 28) when [T >= 1], and
    for [T = 0] [IndexError] from [bnow[T-1]] (line 51) when the guard of
    line 49 lets [V] through; otherwise it returns the empty trajectory
    and [total_cost] raises [TypeError] from [len(bnow)] (line 109). *)
Definition regret_of_nothing (V T lower_limit upper_limit : Z) : pyexn :=
  if bool_decide (T < 0) then CoreError ValueError
  else if bool_decide (1 <= T) then CoreError IndexError
  else if bool_decide (lower_limit <= V <= upper_limit) then CoreError IndexError
  else TypeError.

(** Rows of unequal length make [np.add.reduce] raise [ValueError] when
    it builds the array (numpy 1.24 and later). *)
Definition regret (cumulative_cost : Q) (opponent_actions : list (list Q))
    (V T : Z) (kappa : Q) (lower_limit upper_limit : Z) : pyres Q :=
  let r := inject_Z (Z.of_nat (length opponent_actions)) in
  match opponent_actions with
  | [] => Throw (regret_of_nothing V T lower_limit upper_limit)
  | row :: rest =>
      if same_length row rest then
        let bnow_r := (fun x => x / r)%Q <$> add_reduce row rest in
        best_action <~ lift (best_respond V bnow_r T kappa lower_limit upper_limit) ;;
        best_cost <~ lift (total_cost (inject_Z <$> best_action) bnow_r kappa) ;;
        Return (cumulative_cost - r * best_cost)%Q
      else Throw (CoreError ValueError)
  end.

(** *** [swap_regret] *)

(** Two trajectories as dictionary keys (tuples of floats): equal when
    they have the same length and equal entries. *)
Definition same_action (a b : list Q) : bool :=
  Nat.eqb (length a) (length b)
  && forallb (fun xy => Qeq_bool xy.1 xy.2) (zip a b).

(** [action_to_indices[a1].append(t)] on a [defaultdict(list)]; a
    dictionary keeps its keys in the order of their first insertion. *)
Fixpoint file_round (groups : list (list Q * list Z)) (a1 : list Q) (t : Z)
  : list (list Q * list Z) :=
  match groups with
  | [] => [(a1, [t])]
  | (key, ts) :: groups' =>
      if same_action key a1 then (key, ts ++ [t]) :: groups'
      else (key, ts) :: file_round groups' a1 t
  end.

(** The loop of lines 68-69 over [enumerate(p1_actions)]. *)
Definition group_rounds (p1_actions : list (list Q)) : list (list Q * list Z) :=
  foldl (fun groups ta => file_round groups ta.2 ta.1) []
    (zip (range 0 (Z.of_nat (length p1_actions))) p1_actions).

(** Body of the loop of lines 59-60. *)
Definition round_cost (p1_actions p2_actions : list (list Q)) (kappa : Q)
    (p1_costs : list Q) (t : Z) : res (list Q) :=
  a1 <- getitem p1_actions t ;;
  a2 <- getitem p2_actions t ;;
  c <- total_cost a1 a2 kappa ;;
  Ret (p1_costs ++ [c]).

(** Body of the loop of lines 73-78 over the items of the dictionary. *)
Definition group_regret (p2_actions : list (list Q)) (p1_costs : list Q)
    (Va T : Z) (kappa : Q) (lower_limit upper_limit : Z)
    (total_regret : Q) (group : list Q * list Z) : pyres Q :=
  p2_subseq <~ lift (gather (getitem p2_actions) group.2) ;;
  costs <~ lift (gather (getitem p1_costs) group.2) ;;
  g <~ regret (np_sum costs) p2_subseq Va T kappa lower_limit upper_limit ;;
  Return (total_regret + g)%Q.

Definition swap_regret (p1_actions p2_actions : list (list Q))
    (Va T : Z) (kappa : Q) (lower_limit upper_limit : Z) : pyres Q :=
  p1_costs <~ lift (foldM (round_cost p1_actions p2_actions kappa)
                      (range 0 (Z.of_nat (length p1_actions))) []) ;;
  pfoldM (group_regret p2_actions p1_costs Va T kappa lower_limit upper_limit)
    (group_rounds p1_actions) 0%Q.


(** *** [welfare] *)

(** Body of the loop of lines 154-157 over the items of [joint_dist],
    a dictionary from pairs of trajectories to probabilities. *)
Definition welfare_step (kappa : Q) (welfare : Q)
    (item : (list Q * list Q) * Q) : res Q :=
  let '((a, b), prob) := item in
  cost1 <- total_cost a b kappa ;;
  cost2 <- total_cost b a kappa ;;
  Ret (welfare + prob * (cost1 + cost2))%Q.

Definition welfare (joint_dist : list ((list Q * list Q) * Q)) (kappa : Q)
  : res Q :=
  foldM (welfare_step kappa) joint_dist 0%Q.

(** The same joint distribution with the two players exchanged. *)
Definition exchange (joint_dist : list ((list Q * list Q) * Q))
  : list ((list Q * list Q) * Q) :=
  (fun item : (list Q * list Q) * Q => ((item.1.2, item.1.1), item.2))
    <$> joint_dist.

(** *** [marginal_cost] *)

(** [Counter] counting one more occurrence of [a]; the keys stay in the
    order of their first occurrence. *)
Fixpoint count_action (frequencies : list (list Q * Z)) (a : list Q)
  : list (list Q * Z) :=
  match frequencies with
  | [] => [(a, 1)]
  | (key, freq) :: frequencies' =>
      if same_action key a then (key, freq + 1) :: frequencies'
      else (key, freq) :: count_action frequencies' a
  end.

(** [Counter([tuple(a) for a in actions])] *)
Definition Counter (actions : list (list Q)) : list (list Q * Z) :=
  foldl count_action [] actions.

(** [freq / num_rounds] on Python integers. *)
Definition true_div (freq num_rounds : Z) : pyres Q :=
  if bool_decide (num_rounds = 0) then Throw ZeroDivisionError
  else Return (inject_Z freq / inject_Z num_rounds)%Q.

Fixpoint pgather {X Y : Type} (f : X -> pyres Y) (xs : list X) : pyres (list Y) :=
  match xs with
  | [] => Return []
  | x :: xs' => y <~ f x ;; ys <~ pgather f xs' ;; Return (y :: ys)
  end.

(** [{action: freq / num_rounds for action, freq in frequencies.items()}] *)
Definition distribution (frequencies : list (list Q * Z)) (num_rounds : Z)
  : pyres (list (list Q * Q)) :=
  pgather (fun af => p <~ true_div af.2 num_rounds ;; Return (af.1, p))
    frequencies.

(** Body of the inner loop (lines 105-107). *)
Definition weigh (kappa : Q) (a1 : list Q) (freq1 : Q) (cost : Q)
    (af2 : list Q * Q) : res Q :=
  let weight := (freq1 * af2.2)%Q in
  c <- total_cost a1 af2.1 kappa ;;
  Ret (cost + c * weight)%Q.

Definition marginal_cost (p1_actions p2_actions : list (list Q)) (kappa : Q)
  : pyres Q :=
  let num_rounds := Z.of_nat (length p1_actions) in
  p1_dist <~ distribution (Counter p1_actions) num_rounds ;;
  p2_dist <~ distribution (Counter p2_actions) num_rounds ;;
  lift (foldM (fun cost af1 => foldM (weigh kappa af1.1 af1.2) p2_dist cost)
          p1_dist 0%Q).

(** *** [dist_to_nash] *)




(** * Properties *)

(** ** The exception monad and loops *)

Lemma rbind_Ret_inv {A B : Type} (m : res A) (k : A -> res B) (b : B) :
  rbind m k = Ret b -> exists a, m = Ret a /\ k a = Ret b.
Proof. destruct m as [a|e]; simpl; [eauto | discriminate]. Qed.

(** Total-correctness rule for a loop: the invariant is indexed by the
    list of items already processed. *)
Lemma foldM_invariant {S X : Type} (body : S -> X -> res S)
    (I : list X -> S -> Prop) (xs : list X) (st0 : S) :
  I [] st0 ->
  (forall done x rest st,
      xs = done ++ x :: rest -> I done st ->
      exists st', body st x = Ret st' /\ I (done ++ [x]) st') ->
  exists st, foldM body xs st0 = Ret st /\ I xs st.
Proof.
  intros H0 Hstep.
  cut (forall todo done st, xs = done ++ todo -> I done st ->
         exists st', foldM body todo st = Ret st' /\ I xs st').
  { intros Hcut. apply (Hcut xs [] st0); [reflexivity | exact H0]. }
  induction todo as [|x todo IH]; intros done st Hxs HI; simpl.
  - exists st. split; [reflexivity|]. rewrite Hxs, app_nil_r. exact HI.
  - destruct (Hstep done x todo st Hxs HI) as (st' & Hb & HI').
    rewrite Hb. simpl. apply (IH (done ++ [x])); [|exact HI'].
    rewrite <- app_assoc. exact Hxs.
Qed.

(** Partial-correctness rule: if the loop returns, every iteration did. *)
Lemma foldM_invariant_ret {S X : Type} (body : S -> X -> res S)
    (I : list X -> S -> Prop) (xs : list X) (st0 st : S) :
  foldM body xs st0 = Ret st ->
  I [] st0 ->
  (forall done x rest st1 st2,
      xs = done ++ x :: rest -> I done st1 -> body st1 x = Ret st2 ->
      I (done ++ [x]) st2) ->
  I xs st.
Proof.
  intros Hrun H0 Hstep.
  cut (forall todo done st1, xs = done ++ todo -> I done st1 ->
         foldM body todo st1 = Ret st -> I xs st).
  { intros Hcut. apply (Hcut xs [] st0); auto. }
  induction todo as [|x todo IH]; intros done st1 Hxs HI Hf; simpl in Hf.
  - injection Hf as <-. rewrite Hxs, app_nil_r. exact HI.
  - apply rbind_Ret_inv in Hf as (st2 & Hb & Hf).
    apply (IH (done ++ [x]) st2); [| |exact Hf].
    + rewrite <- app_assoc. exact Hxs.
    + eapply Hstep; eauto.
Qed.

(** ** Ranges *)

Lemma elem_of_range (lo hi k : Z) : k ∈ range lo hi <-> lo <= k < hi.
Proof. unfold range. rewrite elem_of_seqZ. lia. Qed.

Lemma range_nil (lo hi : Z) : hi <= lo -> range lo hi = [].
Proof. intros. unfold range. apply seqZ_nil. lia. Qed.

Lemma range_cons (lo hi : Z) : lo < hi -> range lo hi = lo :: range (lo + 1) hi.
Proof.
  intros. unfold range. rewrite seqZ_cons by lia.
  f_equal. f_equal; lia.
Qed.

Lemma range_app (lo mid hi : Z) :
  lo <= mid <= hi -> range lo hi = range lo mid ++ range mid hi.
Proof.
  intros. unfold range.
  replace (hi - lo) with ((mid - lo) + (hi - mid)) by lia.
  rewrite seqZ_app by lia. do 2 f_equal; lia.
Qed.

Lemma length_range (lo hi : Z) : length (range lo hi) = Z.to_nat (hi - lo).
Proof. apply length_seqZ. Qed.

(** Where a loop over a range stands when it reaches [x]. *)
Lemma range_split (lo hi x : Z) (done rest : list Z) :
  range lo hi = done ++ x :: rest ->
  lo <= x < hi /\ done = range lo x /\ rest = range (x + 1) hi.
Proof.
  intros Heq.
  assert (Hx : range lo hi !! length done = Some x).
  { rewrite Heq. rewrite lookup_app_r by lia.
    replace (length done - length done)%nat with 0%nat by lia. reflexivity. }
  unfold range in Hx. apply lookup_seqZ in Hx as [Hx Hlt].
  assert (Hr : lo <= x < hi) by lia.
  split; [exact Hr|].
  rewrite (range_app lo x hi) in Heq by lia.
  rewrite (range_cons x hi) in Heq by lia.
  assert (Hlen : length (range lo x) = length done).
  { rewrite length_range. lia. }
  apply app_inj_1 in Heq as [H1 H2]; [|exact Hlen].
  injection H2 as H2. auto.
Qed.

Lemma rev_range_split (lo hi x : Z) (done rest : list Z) :
  rev (range lo hi) = done ++ x :: rest ->
  lo <= x < hi /\ done = rev (range (x + 1) hi) /\ rest = rev (range lo x).
Proof.
  intros Heq.
  assert (Heq' : range lo hi = rev rest ++ x :: rev done).
  { rewrite <- (rev_involutive (range lo hi)), Heq.
    rewrite rev_app_distr. simpl. rewrite <- app_assoc. reflexivity. }
  apply range_split in Heq' as (Hr & H1 & H2).
  split; [exact Hr|]. split.
  - rewrite <- H2. symmetry. apply rev_involutive.
  - rewrite <- H1. symmetry. apply rev_involutive.
Qed.

(** ** Indexing *)

Lemma norm_index_nonneg (n : nat) (i : Z) :
  0 <= i < Z.of_nat n -> norm_index n i = Ret (Z.to_nat i).
Proof. intros. unfold norm_index. rewrite bool_decide_eq_true_2 by lia. reflexivity. Qed.

Lemma norm_index_Ret (n : nat) (i : Z) (k : nat) :
  norm_index n i = Ret k -> (k < n)%nat.
Proof.
  unfold norm_index. repeat case_bool_decide; intros [=]; subst; lia.
Qed.

Lemma getitem_lookup {A : Type} (l : list A) (i : Z) (x : A) :
  0 <= i -> l !! Z.to_nat i = Some x -> getitem l i = Ret x.
Proof.
  intros Hi Hl. unfold getitem.
  rewrite norm_index_nonneg; simpl.
  - rewrite Hl. reflexivity.
  - apply lookup_lt_Some in Hl. lia.
Qed.

Lemma setitem_insert {A : Type} (l : list A) (i : Z) (x : A) :
  0 <= i < Z.of_nat (length l) -> setitem l i x = Ret (<[Z.to_nat i := x]> l).
Proof. intros. unfold setitem. rewrite norm_index_nonneg by lia. reflexivity. Qed.

Lemma shaped_lookup {A : Type} (R C : nat) (m : list (list A)) (r : nat) (row : list A) :
  shaped R C m -> m !! r = Some row -> length row = C.
Proof.
  intros [_ HF] Hr. rewrite Forall_forall in HF. apply HF.
  apply list_elem_of_In. eapply list_elem_of_lookup_2. exact Hr.
Qed.


Lemma getitem2_cell {A : Type} (m : list (list A)) (r c : Z) (x : A) :
  0 <= r -> 0 <= c -> cell m r c = Some x -> getitem2 m r c = Ret x.
Proof.
  intros Hr Hc. unfold cell, getitem2.
  destruct (m !! Z.to_nat r) as [row|] eqn:Hrow; simpl; [|discriminate].
  intros Hx. rewrite (getitem_lookup m r row Hr Hrow). simpl.
  apply getitem_lookup; assumption.
Qed.

Lemma setitem2_cell {A : Type} (R C : nat) (m : list (list A)) (r c : Z) (x : A) :
  shaped R C m -> 0 <= r < Z.of_nat R -> 0 <= c < Z.of_nat C ->
  exists m', setitem2 m r c x = Ret m' /\ shaped R C m' /\
    cell m' r c = Some x /\
    forall r' c', 0 <= r' -> 0 <= c' -> (r', c') <> (r, c) ->
      cell m' r' c' = cell m r' c'.
Proof.
  intros Hs Hr Hc.
  destruct (lookup_lt_is_Some_2 m (Z.to_nat r)) as [row Hrow].
  { destruct Hs as [-> _]. lia. }
  pose proof (shaped_lookup R C m _ row Hs Hrow) as Hlen.
  exists (<[Z.to_nat r := <[Z.to_nat c := x]> row]> m).
  assert (Hlm : length m = R) by apply Hs.
  split; [|split; [|split]].
  - unfold setitem2. rewrite (getitem_lookup m r row) by (lia || assumption).
    simpl. rewrite setitem_insert by lia. simpl.
    apply setitem_insert. lia.
  - split; [rewrite length_insert; exact Hlm|].
    apply Forall_insert; [apply Hs|]. rewrite length_insert. exact Hlen.
  - unfold cell. rewrite list_lookup_insert_eq by lia. simpl.
    apply list_lookup_insert_eq. lia.
  - intros r' c' Hr' Hc' Hne. unfold cell.
    destruct (decide (Z.to_nat r' = Z.to_nat r)) as [Heq|Hner].
    + rewrite Heq, list_lookup_insert_eq by lia. rewrite Hrow. simpl.
      apply list_lookup_insert_ne. intros Hcc. apply Hne.
      f_equal; lia.
    + rewrite list_lookup_insert_ne by auto. reflexivity.
Qed.

Lemma np_full_cell {A : Type} (rows cols : Z) (v : A) :
  0 <= rows -> 0 <= cols ->
  exists m, np_full rows cols v = Ret m /\
    shaped (Z.to_nat rows) (Z.to_nat cols) m /\
    forall r c, 0 <= r < rows -> 0 <= c < cols -> cell m r c = Some v.
Proof.
  intros Hr Hc. unfold np_full.
  rewrite bool_decide_eq_false_2 by lia.
  eexists. split; [reflexivity|]. split.
  - split; [apply length_replicate|].
    apply Forall_replicate. apply length_replicate.
  - intros r c Hr' Hc'. unfold cell.
    rewrite lookup_replicate_2 by lia. simpl.
    apply lookup_replicate_2. lia.
Qed.

Lemma getitem_fmap_range {A : Type} (f : Z -> A) (n i : Z) :
  0 <= i < n -> getitem (f <$> range 0 n) i = Ret (f i).
Proof.
  intros Hi. apply getitem_lookup; [lia|].
  rewrite list_lookup_fmap. unfold range.
  rewrite lookup_seqZ_lt by lia. simpl. f_equal. f_equal. lia.
Qed.

Lemma getitem_app_length {A : Type} (pre suf : list A) (x : A) :
  getitem (pre ++ x :: suf) (Z.of_nat (length pre)) = Ret x.
Proof.
  apply getitem_lookup; [lia|].
  rewrite Nat2Z.id, lookup_app_r by lia.
  replace (length pre - length pre)%nat with 0%nat by lia. reflexivity.
Qed.

Lemma slice_to_app_length {A : Type} (pre suf : list A) :
  slice_to (pre ++ suf) (Z.of_nat (length pre)) = pre.
Proof.
  unfold slice_to. rewrite bool_decide_eq_false_2 by lia.
  rewrite Nat2Z.id. apply take_app_length.
Qed.

(** ** [total_cost] *)

Lemma np_sum_snoc (l : list Q) (x : Q) : (np_sum (l ++ [x]) == np_sum l + x)%Q.
Proof.
  unfold np_sum. induction l as [|y l IH]; simpl; [ring|].
  rewrite IH. ring.
Qed.

Lemma cost_formula_proper (kappa A A' B B' : Q) (a b : list Q) :
  (A == A')%Q -> (B == B')%Q ->
  (cost_formula kappa A B a b == cost_formula kappa A' B' a b)%Q.
Proof.
  revert b A A' B B'. induction a as [|x a IH]; intros [|y b] A A' B B' HA HB;
    simpl; try reflexivity.
  rewrite (IH b (A + x)%Q (A' + x)%Q (B + y)%Q (B' + y)%Q).
  - rewrite HA, HB. reflexivity.
  - rewrite HA. reflexivity.
  - rewrite HB. reflexivity.
Qed.

Lemma charge_at (kappa : Q) (pre_a suf_a pre_b suf_b : list Q) (x y acc : Q) :
  length pre_a = length pre_b -> length suf_a = length suf_b ->
  charge (pre_a ++ x :: suf_a) (pre_b ++ y :: suf_b) kappa
    (cumulative_before (pre_a ++ x :: suf_a))
    (cumulative_before (pre_b ++ y :: suf_b)) acc (Z.of_nat (length pre_a))
  = Ret (acc + ((x + y) * x + kappa * (np_sum pre_a + np_sum pre_b) * x))%Q.
Proof.
  intros Hpre Hsuf. unfold charge.
  rewrite getitem_app_length. cbn [rbind].
  rewrite Hpre, getitem_app_length. cbn [rbind].
  unfold cumulative_before.
  rewrite <- Hpre.
  rewrite !getitem_fmap_range by (rewrite length_app; simpl; lia).
  cbn [rbind]. rewrite slice_to_app_length.
  rewrite Hpre, slice_to_app_length. reflexivity.
Qed.

(** The accumulation loop from step [length pre_a] on adds the formula
    of the remaining steps to the running total. *)
Lemma total_cost_loop (kappa : Q) (suf_a suf_b pre_a pre_b : list Q) (acc : Q) :
  length pre_a = length pre_b -> length suf_a = length suf_b ->
  exists c,
    foldM (charge (pre_a ++ suf_a) (pre_b ++ suf_b) kappa
             (cumulative_before (pre_a ++ suf_a))
             (cumulative_before (pre_b ++ suf_b)))
      (range (Z.of_nat (length pre_a)) (Z.of_nat (length (pre_a ++ suf_a)))) acc
    = Ret c /\
    (c == acc + cost_formula kappa (np_sum pre_a) (np_sum pre_b) suf_a suf_b)%Q.
Proof.
  revert suf_b pre_a pre_b acc.
  induction suf_a as [|x suf_a IH]; intros [|y suf_b] pre_a pre_b acc Hpre Hsuf;
    simpl in Hsuf; try discriminate.
  - rewrite app_nil_r, range_nil by lia. simpl.
    exists acc. split; [reflexivity | ring].
  - rewrite range_cons by (rewrite length_app; simpl; lia).
    cbn [foldM]. rewrite charge_at by lia. cbn [rbind].
    specialize (IH suf_b (pre_a ++ [x]) (pre_b ++ [y])
      (acc + ((x + y) * x + kappa * (np_sum pre_a + np_sum pre_b) * x))%Q).
    rewrite <- !app_assoc in IH. simpl in IH.
    rewrite length_app in IH. simpl in IH.
    replace (Z.of_nat (length pre_a + 1)) with (Z.of_nat (length pre_a) + 1) in IH by lia.
    destruct IH as (c & Hc & Hq).
    { rewrite !length_app. simpl. lia. }
    { lia. }
    exists c. split; [exact Hc|].
    rewrite Hq.
    rewrite (cost_formula_proper kappa _ (np_sum pre_a + x)%Q _ (np_sum pre_b + y)%Q)
      by apply np_sum_snoc.
    simpl. ring.
Qed.

Lemma total_cost_is_formula (a b : list Q) (kappa : Q) :
  length a = length b ->
  exists c, total_cost a b kappa = Ret c /\ (c == cost_formula kappa 0 0 a b)%Q.
Proof.
  intros Hlen.
  destruct (total_cost_loop kappa a b [] [] 0%Q eq_refl Hlen) as (c & Hc & Hq).
  exists c. split; [exact Hc|]. rewrite Hq. simpl. ring.
Qed.

(** C2. For trajectories [a], [b] of equal length and any [kappa],
    [total_cost a b kappa] returns (whatever the trajectories sum to)
    the sum over the steps [t] of
    [(a[t] + b[t]) * a[t] + kappa * (A[t] + B[t]) * a[t]],
    with [A[t]], [B[t]] the quantities traded strictly before [t], both
    [0] at [t = 0]; for trajectories of length [0] the result is [0]. *)
Theorem total_cost_formula (a b : list Q) (kappa : Q) :
  length a = length b ->
  (exists c, total_cost a b kappa = Ret c /\
             (c == cost_formula kappa 0 0 a b)%Q) /\
  (length a = 0%nat -> total_cost a b kappa = Ret 0%Q).
Proof.
  intros Hlen. split; [apply total_cost_is_formula; exact Hlen|].
  intros Ha. destruct a; [|discriminate]. reflexivity.
Qed.

Lemma total_cost_formula_witness :
  (exists c, total_cost [2; 2]%Q [1; 1]%Q (1 # 2) = Ret c /\
             (c == cost_formula (1 # 2) 0 0 [2; 2]%Q [1; 1]%Q)%Q) /\
  (length [2; 2]%Q = 0%nat -> total_cost [2; 2]%Q [1; 1]%Q (1 # 2) = Ret 0%Q).
Proof. apply (total_cost_formula [2; 2]%Q [1; 1]%Q (1 # 2)). reflexivity. Defined.

(** ** Order on costs *)

Lemma cost_ltb_false (c1 c2 : cost) : cost_ltb c1 c2 = false <-> cost_le c2 c1.
Proof.
  destruct c1 as [x|], c2 as [y|]; simpl.
  - rewrite negb_false_iff. apply Qle_bool_iff.
  - split; [discriminate | contradiction].
  - split; reflexivity.
  - split; reflexivity.
Qed.

Lemma cost_ltb_true (c1 c2 : cost) : cost_ltb c1 c2 = true <-> ~ cost_le c2 c1.
Proof.
  rewrite <- cost_ltb_false. destruct (cost_ltb c1 c2); split; congruence.
Qed.

Lemma cost_le_refl (c : cost) : cost_le c c.
Proof. destruct c; simpl; [apply Qle_refl | exact I]. Qed.

Lemma cost_le_trans (c1 c2 c3 : cost) : cost_le c1 c2 -> cost_le c2 c3 -> cost_le c1 c3.
Proof.
  destruct c1, c2, c3; simpl; try tauto. apply Qle_trans.
Qed.

Lemma cost_le_total (c1 c2 : cost) : cost_le c1 c2 \/ cost_le c2 c1.
Proof.
  destruct c1 as [x|], c2 as [y|]; simpl; try tauto.
  destruct (Qlt_le_dec x y) as [H|H]; [left; apply Qlt_le_weak, H | right; exact H].
Qed.

Lemma cost_ltb_le (c1 c2 : cost) : cost_ltb c1 c2 = true -> cost_le c1 c2.
Proof.
  intros H. apply cost_ltb_true in H.
  destruct (cost_le_total c1 c2); tauto.
Qed.

Lemma cost_le_fin (c1 c2 : cost) : cost_le c1 c2 -> is_fin c2 -> is_fin c1.
Proof. destruct c1, c2; simpl; tauto. Qed.

Lemma is_fin_cost_add (c : cost) (x : Q) : is_fin (cost_add c x) <-> is_fin c.
Proof. destruct c; simpl; tauto. Qed.

(** ** The scan over the candidate trades *)

Section Scan.

Variable cand : Z -> cost.

Lemma scan_snoc (acc : cost * Z) (qs : list Z) (q : Z) :
  foldl (pick cand) acc (qs ++ [q]) = pick cand (foldl (pick cand) acc qs) q.
Proof. rewrite foldl_app. reflexivity. Qed.

(** The running minimum only decreases and bounds every candidate
    already scanned. *)
Lemma scan_lower_bound (qs : list Z) (acc : cost * Z) :
  cost_le (foldl (pick cand) acc qs).1 acc.1 /\
  forall q, q ∈ qs -> cost_le (foldl (pick cand) acc qs).1 (cand q).
Proof.
  revert acc. induction qs as [|q qs IH]; intros acc; simpl.
  - split; [apply cost_le_refl|]. intros q Hq. inversion Hq.
  - destruct (IH (pick cand acc q)) as [IH1 IH2].
    assert (Hp : cost_le (pick cand acc q).1 acc.1 /\
                 cost_le (pick cand acc q).1 (cand q)).
    { unfold pick. destruct (cost_ltb (cand q) acc.1) eqn:E; simpl.
      - split; [apply cost_ltb_le, E | apply cost_le_refl].
      - split; [apply cost_le_refl | apply cost_ltb_false, E]. }
    destruct Hp as [Hp1 Hp2]. split.
    + eapply cost_le_trans; eauto.
    + intros q' Hq'. apply elem_of_cons in Hq' as [->|Hq'].
      * eapply cost_le_trans; eauto.
      * apply IH2, Hq'.
Qed.

(** The pair kept by the scan is the initial one or a scanned trade
    with its candidate cost. *)
Lemma scan_result (qs : list Z) (acc : cost * Z) :
  foldl (pick cand) acc qs = acc \/
  exists q, q ∈ qs /\ foldl (pick cand) acc qs = (cand q, q) /\
            cost_ltb (cand q) acc.1 = true.
Proof.
  revert acc. induction qs as [|q qs IH]; intros acc; simpl; [left; reflexivity|].
  destruct (IH (pick cand acc q)) as [Heq|(q' & Hq' & Heq & Hlt)].
  - rewrite Heq. unfold pick. destruct (cost_ltb (cand q) acc.1) eqn:E.
    + right. exists q. split; [left|]. split; [reflexivity | exact E].
    + left. reflexivity.
  - right. exists q'. split; [right; exact Hq'|]. split; [exact Heq|].
    unfold pick in Hlt. destruct (cost_ltb (cand q) acc.1) eqn:E; simpl in Hlt.
    + apply cost_ltb_true. apply cost_ltb_true in Hlt. apply cost_ltb_true in E.
      intros Hle. apply E. 
      destruct (cost_le_total (cand q) (cand q')) as [H|H]; [tauto|].
      eapply cost_le_trans; eauto.
    + exact Hlt.
Qed.

(** A later candidate that is not strictly cheaper never replaces the
    pair already kept. *)
Lemma scan_keep (qs : list Z) (acc : cost * Z) :
  (forall q, q ∈ qs -> cost_ltb (cand q) acc.1 = false) ->
  foldl (pick cand) acc qs = acc.
Proof.
  revert acc. induction qs as [|q qs IH]; intros acc H; simpl; [reflexivity|].
  unfold pick at 2. rewrite (H q) by left. apply IH.
  intros q' Hq'. apply H. right. exact Hq'.
Qed.

(** The scan keeps the first trade that attains the minimum. *)
Lemma scan_first_minimum (lo hi q0 : Z) :
  lo <= q0 < hi ->
  is_fin (cand q0) ->
  (forall q, lo <= q < hi -> cost_le (cand q0) (cand q)) ->
  (forall q, lo <= q < q0 -> ~ cost_le (cand q) (cand q0)) ->
  foldl (pick cand) (Inf, 0) (range lo hi) = (cand q0, q0).
Proof.
  intros Hq0 Hfin Hmin Hfirst.
  rewrite (range_app lo q0 hi) by lia.
  rewrite (range_cons q0 hi) by lia.
  rewrite foldl_app. simpl.
  assert (Hpick : pick cand (foldl (pick cand) (Inf, 0) (range lo q0)) q0
                  = (cand q0, q0)).
  { destruct (scan_result (range lo q0) (Inf, 0)) as [->|(q & Hq & -> & _)];
      unfold pick; simpl.
    - destruct (cand q0); simpl in *; [reflexivity | contradiction].
    - apply elem_of_range in Hq.
      replace (cost_ltb (cand q0) (cand q)) with true; [reflexivity|].
      symmetry. apply cost_ltb_true. apply Hfirst. lia. }
  rewrite Hpick. apply scan_keep.
  intros q Hq. apply elem_of_range in Hq. simpl.
  apply cost_ltb_false. apply Hmin. lia.
Qed.

(** Conversely, what a scan from [(Inf, 0)] keeps with a finite cost is
    the first minimiser. *)
Lemma scan_fin_first_minimum (lo hi : Z) (m : cost) (a : Z) :
  foldl (pick cand) (Inf, 0) (range lo hi) = (m, a) ->
  is_fin m ->
  lo <= a < hi /\ m = cand a /\
  (forall q, lo <= q < hi -> cost_le (cand a) (cand q)) /\
  (forall q, lo <= q < a -> ~ cost_le (cand q) (cand a)).
Proof.
  intros Hres Hfin.
  destruct (scan_result (range lo hi) (Inf, 0)) as [Heq|(q & Hq & Heq & _)].
  { rewrite Heq in Hres. injection Hres as <- <-. contradiction. }
  rewrite Heq in Hres. injection Hres as <- <-.
  apply elem_of_range in Hq.
  pose proof (scan_lower_bound (range lo hi) (Inf, 0)) as [_ Hlb].
  rewrite Heq in Hlb. simpl in Hlb.
  split; [exact Hq|]. split; [reflexivity|]. split.
  { intros q' Hq'. apply Hlb, elem_of_range. exact Hq'. }
  intros q' Hq' Hle.
  rewrite (range_app lo q hi) in Heq by lia.
  rewrite (range_cons q hi) in Heq by lia.
  rewrite foldl_app in Heq. simpl in Heq.
  pose proof (scan_lower_bound (range lo q) (Inf, 0)) as [_ Hlb1].
  specialize (Hlb1 q' ltac:(apply elem_of_range; lia)).
  set (acc1 := foldl (pick cand) (Inf, 0) (range lo q)) in *.
  assert (Hno : cost_ltb (cand q) acc1.1 = false).
  { apply cost_ltb_false. eapply cost_le_trans; eauto. }
  destruct (scan_result (range (q + 1) hi) (pick cand acc1 q))
    as [Heq2|(q2 & Hq2 & Heq2 & _)].
  - rewrite Heq2 in Heq. unfold pick in Heq. rewrite Hno in Heq.
    destruct (scan_result (range lo q) (Inf, 0)) as [Hi|(q3 & Hq3 & Hi & _)];
      fold acc1 in Hi; rewrite Hi in Heq.
    + injection Heq as Hc _. rewrite <- Hc in Hfin. contradiction.
    + injection Heq as _ Hc. apply elem_of_range in Hq3. lia.
  - rewrite Heq2 in Heq. injection Heq as _ Hc.
    apply elem_of_range in Hq2. lia.
Qed.

End Scan.

(** ** The recursion: reachability, actions, optimality *)

Lemma sumZ_cons (q : Z) (l : list Z) : sumZ (q :: l) = q + sumZ l.
Proof. reflexivity. Qed.



Section ValueProperties.

Variables (V : Z) (bnow : list Q) (T : Z) (kappa : Q).
Variables (lower_limit upper_limit : Z).

Local Abbreviation value := (value V bnow T kappa lower_limit upper_limit).
Local Abbreviation policy := (policy V bnow T kappa lower_limit upper_limit).
Local Abbreviation run_cost := (run_cost V bnow T kappa).
Local Abbreviation last_cost := (last_cost V bnow T kappa).
Local Abbreviation cand k s :=
  (fun q => cost_add (value k (s - q)).1
              (step_cost V bnow kappa (T - 1 - Z.of_nat (S k)) s q)).

Lemma value_S (k : nat) (s : Z) :
  value (S k) s = best lower_limit upper_limit (cand k s).
Proof. reflexivity. Qed.

Lemma value_fin_0 (s : Z) :
  is_fin (value 0 s).1 ->
  lower_limit <= s <= upper_limit /\ value 0 s = (Fin (last_cost s), s).
Proof.
  simpl. case_bool_decide; simpl; [auto | contradiction].
Qed.

(** The recorded action of a state with finite cost: within the
    limits, the first minimiser of the candidate costs. *)
Lemma value_fin_S (k : nat) (s : Z) :
  is_fin (value (S k) s).1 ->
  lower_limit <= (value (S k) s).2 <= upper_limit /\
  (value (S k) s).1 = cand k s (value (S k) s).2 /\
  (forall q, lower_limit <= q <= upper_limit ->
             cost_le (value (S k) s).1 (cand k s q)) /\
  (forall q, lower_limit <= q < (value (S k) s).2 ->
             ~ cost_le (cand k s q) (value (S k) s).1).
Proof.
  rewrite value_S. unfold best.
  destruct (foldl _ _ _) as [m a] eqn:E. simpl. intros Hfin.
  destruct (scan_fin_first_minimum _ _ _ _ _ E Hfin) as (Ha & -> & Hmin & Hfirst).
  split; [lia|]. split; [reflexivity|]. split.
  - intros q Hq. apply Hmin. lia.
  - intros q Hq. apply Hfirst. lia.
Qed.

(** A state whose cost is the sentinel keeps the default action. *)
Lemma value_unreached (k : nat) (s : Z) :
  ~ is_fin (value k s).1 -> value k s = (Inf, 0).
Proof.
  destruct k as [|k].
  - simpl. case_bool_decide; simpl; [intros Hn; exfalso; apply Hn; exact I | reflexivity].
  - rewrite value_S. unfold best. intros Hnf.
    destruct (scan_result (cand k s) (range lower_limit (upper_limit + 1)) (Inf, 0))
      as [Heq|(q & _ & Heq & Hlt)]; [exact Heq|].
    exfalso. apply Hnf. rewrite Heq. simpl in *.
    destruct (cost_add _ _); simpl in *; [exact I | discriminate].
Qed.

Lemma value_action_bounds (k : nat) (s : Z) :
  lower_limit <= 0 <= upper_limit ->
  lower_limit <= (value k s).2 <= upper_limit.
Proof.
  intros H0.
  destruct (value k s).1 as [x|] eqn:E.
  - assert (Hfin : is_fin (value k s).1) by (rewrite E; exact I).
    destruct k as [|k].
    + apply value_fin_0 in Hfin as [Hs ->]. exact Hs.
    + apply value_fin_S in Hfin. tauto.
  - rewrite value_unreached; [exact H0|]. rewrite E. simpl. tauto.
Qed.

(** A state has finite cost exactly when the trades still to come can
    add up to it. *)
Lemma value_fin_iff (k : nat) (s : Z) :
  lower_limit <= upper_limit ->
  is_fin (value k s).1 <->
  (Z.of_nat k + 1) * lower_limit <= s <= (Z.of_nat k + 1) * upper_limit.
Proof.
  intros Hlu. revert s. induction k as [|k IH]; intros s.
  - simpl. case_bool_decide; simpl; split; intros; try lia; try exact I;
      try contradiction.
  - replace ((Z.of_nat (S k) + 1) * lower_limit)
      with ((Z.of_nat k + 1) * lower_limit + lower_limit) by lia.
    replace ((Z.of_nat (S k) + 1) * upper_limit)
      with ((Z.of_nat k + 1) * upper_limit + upper_limit) by lia.
    assert (Hn : (Z.of_nat k + 1) * lower_limit <= (Z.of_nat k + 1) * upper_limit)
      by (apply Z.mul_le_mono_nonneg_l; lia).
    split.
    + intros Hfin. pose proof Hfin as Hfin'.
      apply value_fin_S in Hfin as (Ha & Hc & _).
      rewrite Hc in Hfin'. apply is_fin_cost_add in Hfin'.
      apply IH in Hfin'. lia.
    + intros Hs.
      set (q := Z.max lower_limit (s - (Z.of_nat k + 1) * upper_limit)).
      assert (Hq : lower_limit <= q <= upper_limit) by lia.
      assert (Hfq : is_fin (cand k s q)).
      { apply is_fin_cost_add. apply IH. lia. }
      rewrite value_S. unfold best.
      pose proof (scan_lower_bound (cand k s) (range lower_limit (upper_limit + 1))
                    (Inf, 0)) as [_ Hlb].
      eapply cost_le_fin; [|exact Hfq].
      apply Hlb. apply elem_of_range. lia.
Qed.

Lemma value_next_fin (k : nat) (s : Z) :
  is_fin (value (S k) s).1 ->
  is_fin (value k (s - (value (S k) s).2)).1.
Proof.
  intros Hfin. pose proof Hfin as Hfin'.
  apply value_fin_S in Hfin as (_ & Hc & _).
  rewrite Hc in Hfin'. apply is_fin_cost_add in Hfin'. exact Hfin'.
Qed.

Lemma policy_length (k : nat) (s : Z) : length (policy k s) = S k.
Proof.
  revert s. induction k as [|k IH]; intros s; simpl; [reflexivity|].
  rewrite IH. reflexivity.
Qed.

Lemma policy_bounds (k : nat) (s : Z) :
  lower_limit <= 0 <= upper_limit ->
  Forall (fun q => lower_limit <= q <= upper_limit) (policy k s).
Proof.
  intros H0. revert s. induction k as [|k IH]; intros s.
  - constructor; [apply (value_action_bounds 0 s H0) | constructor].
  - change (policy (S k) s)
      with ((value (S k) s).2 :: policy k (s - (value (S k) s).2)).
    constructor; [apply (value_action_bounds (S k) s H0) | apply IH].
Qed.

(** From a state with finite cost the recorded trades use up exactly
    the remaining shares. *)
Lemma policy_sum (k : nat) (s : Z) :
  is_fin (value k s).1 -> sumZ (policy k s) = s.
Proof.
  revert s. induction k as [|k IH]; intros s Hfin.
  - apply value_fin_0 in Hfin as [_ Heq].
    change (policy 0 s) with [(value 0 s).2]. rewrite Heq. simpl.
    unfold sumZ. simpl. lia.
  - change (policy (S k) s)
      with ((value (S k) s).2 :: policy k (s - (value (S k) s).2)).
    apply value_next_fin in Hfin. apply IH in Hfin.
    rewrite sumZ_cons, Hfin. lia.
Qed.

(** The tabulated cost bounds the cost of every admissible sequence
    of trades from the state. *)
Lemma value_le_run_cost (k : nat) (s : Z) (a : list Z) :
  length a = S k ->
  Forall (fun q => lower_limit <= q <= upper_limit) a ->
  sumZ a = s ->
  exists c, (value k s).1 = Fin c /\ (c <= run_cost k s a)%Q.
Proof.
  revert s a. induction k as [|k IH]; intros s a Hlen Hb Hsum.
  - destruct a as [|q [|? ?]]; try discriminate.
    apply Forall_cons_1 in Hb as [Hq _].
    unfold sumZ in Hsum. simpl in Hsum. assert (q = s) by lia. subst q.
    simpl. rewrite bool_decide_eq_true_2 by exact Hq. simpl.
    eexists. split; [reflexivity | apply Qle_refl].
  - destruct a as [|q a]; [discriminate|].
    apply Forall_cons_1 in Hb as [Hq Hb].
    destruct (IH (s - q) a) as (c' & Hc' & Hle); [simpl in Hlen; lia | exact Hb | |].
    { rewrite sumZ_cons in Hsum. lia. }
    pose proof (scan_lower_bound (cand k s) (range lower_limit (upper_limit + 1))
                  (Inf, 0)) as [_ Hlb].
    specialize (Hlb q ltac:(apply elem_of_range; lia)).
    rewrite value_S. unfold best. simpl in Hlb. rewrite Hc' in Hlb. simpl in Hlb.
    destruct (foldl _ _ _).1 as [c|]; [|contradiction].
    exists c. split; [reflexivity|].
    change (run_cost (S k) s (q :: a))
      with (step_cost V bnow kappa (T - 1 - Z.of_nat (S k)) s q
            + run_cost k (s - q) a)%Q.
    simpl in Hlb. lra.
Qed.

(** The tabulated cost is the cost of the recorded trades. *)
Lemma value_eq_run_cost (k : nat) (s : Z) (c : Q) :
  (value k s).1 = Fin c -> (c == run_cost k s (policy k s))%Q.
Proof.
  revert s c. induction k as [|k IH]; intros s c Hc.
  - assert (Hfin : is_fin (value 0 s).1) by (rewrite Hc; exact I).
    apply value_fin_0 in Hfin as [_ Heq]. rewrite Heq in Hc.
    injection Hc as <-. reflexivity.
  - assert (Hfin : is_fin (value (S k) s).1) by (rewrite Hc; exact I).
    pose proof (value_next_fin k s Hfin) as Hnext.
    apply value_fin_S in Hfin as (_ & Heq & _).
    rewrite Hc in Heq.
    change (policy (S k) s)
      with ((value (S k) s).2 :: policy k (s - (value (S k) s).2)).
    set (q := (value (S k) s).2) in *.
    change (run_cost (S k) s (q :: policy k (s - q)))
      with (step_cost V bnow kappa (T - 1 - Z.of_nat (S k)) s q
            + run_cost k (s - q) (policy k (s - q)))%Q.
    destruct (value k (s - q)).1 as [c'|] eqn:E; [|contradiction].
    rewrite <- (IH (s - q) c' E).
    simpl in Heq. injection Heq as ->. ring.
Qed.

End ValueProperties.

(** ** The recursion charges what [total_cost] charges *)

Section RunCost.

Variables (V : Z) (bnow : list Q) (T : Z) (kappa : Q).
Hypothesis HT : 2 <= T.
Hypothesis Hlen : Z.of_nat (length bnow) = T.

Lemma bnow_at_lookup (t : Z) :
  0 <= t < T -> bnow !! Z.to_nat t = Some (bnow_at bnow t).
Proof using Hlen.
  clear HT.
  intros Ht. unfold bnow_at.
  destruct (lookup_lt_is_Some_2 bnow (Z.to_nat t)) as [y Hy]; [lia|].
  rewrite Hy. reflexivity.
Qed.

Lemma opponent_before_take (t : Z) :
  0 <= t -> opponent_before bnow t = np_sum (take (Z.to_nat t) bnow).
Proof using Type.
  clear HT Hlen.
  intros Ht. unfold opponent_before, slice_to.
  rewrite bool_decide_eq_false_2 by lia. reflexivity.
Qed.

Lemma run_cost_formula (k : nat) (s : Z) (a : list Z) :
  0 <= T - 1 - Z.of_nat k ->
  (T - 1 - Z.of_nat k = 0 -> s = V) ->
  length a = S k ->
  sumZ a = s ->
  (run_cost V bnow T kappa k s a ==
   cost_formula kappa (inject_Z (V - s))
     (np_sum (take (Z.to_nat (T - 1 - Z.of_nat k)) bnow))
     (inject_Z <$> a) (drop (Z.to_nat (T - 1 - Z.of_nat k)) bnow))%Q.
Proof.
  revert s a. induction k as [|k IH]; intros s a Ht H0 Hla Hsum.
  - destruct a as [|q [|? ?]]; try discriminate.
    rewrite sumZ_cons in Hsum. change (sumZ []) with 0 in Hsum.
    assert (q = s) by lia. subst q.
    replace (T - 1 - Z.of_nat 0) with (T - 1) by lia.
    rewrite (drop_S bnow (bnow_at bnow (T - 1)) (Z.to_nat (T - 1)))
      by (apply bnow_at_lookup; lia).
    simpl. unfold last_cost.
    rewrite bool_decide_eq_false_2 by lia.
    rewrite opponent_before_take by lia.
    ring.
  - destruct a as [|q a]; [discriminate|].
    rewrite sumZ_cons in Hsum.
    set (t := T - 1 - Z.of_nat (S k)) in *.
    assert (Ht1 : T - 1 - Z.of_nat k = t + 1) by lia.
    specialize (IH (s - q) a ltac:(lia) ltac:(lia) ltac:(simpl in Hla; lia)
                   ltac:(lia)).
    rewrite Ht1 in IH.
    change (run_cost V bnow T kappa (S k) s (q :: a))
      with (step_cost V bnow kappa t s q
            + run_cost V bnow T kappa k (s - q) a)%Q.
    rewrite IH.
    rewrite (drop_S bnow (bnow_at bnow t) (Z.to_nat t))
      by (apply bnow_at_lookup; lia).
    rewrite fmap_cons. cbn [cost_formula].
    replace (S (Z.to_nat t)) with (Z.to_nat (t + 1)) by lia.
    rewrite (cost_formula_proper kappa
               (inject_Z (V - s) + inject_Z q)%Q (inject_Z (V - (s - q)))
               (np_sum (take (Z.to_nat t) bnow) + bnow_at bnow t)%Q
               (np_sum (take (Z.to_nat (t + 1)) bnow))).
    + unfold step_cost. case_bool_decide as Ht0.
      * rewrite Ht0. rewrite (H0 Ht0). replace (V - V) with 0 by lia.
        simpl. ring.
      * rewrite opponent_before_take by lia. ring.
    + rewrite <- inject_Z_plus. f_equiv. lia.
    + replace (Z.to_nat (t + 1)) with (S (Z.to_nat t)) by lia.
      rewrite (take_S_r bnow (Z.to_nat t) (bnow_at bnow t))
        by (apply bnow_at_lookup; lia).
      symmetry. apply np_sum_snoc.
Qed.

(** On a whole trajectory that acquires [V] the recursion charges
    exactly [total_cost]. *)
Lemma total_cost_run_cost (a : list Z) :
  Z.of_nat (length a) = T -> sumZ a = V ->
  exists c, total_cost (inject_Z <$> a) bnow kappa = Ret c /\
            (c == run_cost V bnow T kappa (Z.to_nat (T - 1)) V a)%Q.
Proof.
  intros Hla Hsum.
  destruct (total_cost_is_formula (inject_Z <$> a) bnow kappa) as (c & Hc & Hq).
  { rewrite length_fmap. lia. }
  exists c. split; [exact Hc|]. rewrite Hq.
  rewrite run_cost_formula by (reflexivity || lia).
  replace (T - 1 - Z.of_nat (Z.to_nat (T - 1))) with 0 by lia.
  replace (V - V) with 0 by lia. simpl. reflexivity.
Qed.

End RunCost.

(** ** The tables tabulate the recursion *)

Section Refinement.

Variables (V : Z) (bnow : list Q) (T : Z) (kappa : Q).
Variables (lower_limit upper_limit : Z).
Hypothesis HT : 1 <= T.
Hypothesis Hlen : Z.of_nat (length bnow) = T.
Hypothesis Hlow : lower_limit <= 0.
Hypothesis Hupp : 0 <= upper_limit.

Local Abbreviation idx := (s_to_index V T upper_limit).
Local Abbreviation size := (s_size V T lower_limit upper_limit).
Local Abbreviation value := (value V bnow T kappa lower_limit upper_limit).
Local Abbreviation well_shaped := (well_shaped V T lower_limit upper_limit).
Local Abbreviation in_table := (in_table V T lower_limit upper_limit).
Local Abbreviation in_window := (in_window V lower_limit upper_limit).
Local Abbreviation entry := (entry V T upper_limit).
Local Abbreviation same_except := (same_except V T lower_limit upper_limit).
Local Abbreviation tabulates := (tabulates V bnow T kappa lower_limit upper_limit).

Lemma size_eq : size = (upper_limit - lower_limit) * T + 1.
Proof using Type.
  clear HT Hlen Hlow Hupp.
  unfold s_size, max_remaining, min_remaining. lia. Qed.

(** With [lower_limit <= 0 <= upper_limit] the window of every step
    lies inside the range of states the table is sized for. *)
Lemma window_in_table (t s : Z) :
  0 <= t <= T -> in_window t s -> 0 <= idx s < size.
Proof using Hlow Hupp.
  clear HT Hlen.
  unfold in_window, s_to_index, s_size, max_remaining, min_remaining.
  intros Ht [H1 H2].
  assert (0 <= upper_limit * (T - t)) by (apply Z.mul_nonneg_nonneg; lia).
  assert (lower_limit * (T - t) <= 0) by (apply Z.mul_nonpos_nonneg; lia).
  lia.
Qed.

Lemma window_step (t s q : Z) :
  in_window t s -> lower_limit <= q <= upper_limit -> in_window (t + 1) (s - q).
Proof using Type.
  clear HT Hlen Hlow Hupp.
  unfold in_window, max_remaining, min_remaining. intros [H1 H2] Hq. lia.
Qed.


Lemma entry_read (tb : tables) (t s : Z) (c : cost) (a : Z) :
  0 <= t -> 0 <= idx s -> entry tb t s = Some (c, a) ->
  getitem2 (dptable tb) t (idx s) = Ret c /\
  getitem2 (dpaction tb) t (idx s) = Ret a.
Proof using Type.
  clear HT Hlen Hlow Hupp.
  intros Ht Hi. unfold entry.
  destruct (cell (dptable tb) t (idx s)) as [c'|] eqn:E1; simpl; [|discriminate].
  destruct (cell (dpaction tb) t (idx s)) as [a'|] eqn:E2; simpl; [|discriminate].
  intros [= -> ->]. split; apply getitem2_cell; assumption.
Qed.

(** The two assignments [dptable[t, i] = c; dpaction[t, i] = a]. *)
Lemma write_entry (tb : tables) (t s : Z) (c : cost) (a : Z) :
  well_shaped tb -> in_table t s ->
  exists dpt dpa,
    setitem2 (dptable tb) t (idx s) c = Ret dpt /\
    setitem2 (dpaction tb) t (idx s) a = Ret dpa /\
    same_except t s tb (Tables dpt dpa) /\
    entry (Tables dpt dpa) t s = Some (c, a).
Proof using Type.
  clear HT Hlen Hlow Hupp.
  intros [Hs1 Hs2] [Ht Hi].
  destruct (setitem2_cell _ _ (dptable tb) t (idx s) c Hs1)
    as (dpt & Hw1 & Hs1' & Hc1 & Ho1); [lia..|].
  destruct (setitem2_cell _ _ (dpaction tb) t (idx s) a Hs2)
    as (dpa & Hw2 & Hs2' & Hc2 & Ho2); [lia..|].
  exists dpt, dpa. split; [exact Hw1|]. split; [exact Hw2|]. split.
  - split; [split; assumption|].
    intros t' s' [Ht' Hi'] Hne. unfold entry. simpl.
    rewrite Ho1, Ho2; try lia; try reflexivity;
      intros [= -> Heq]; apply Hne; f_equal; unfold s_to_index in Heq; lia.
  - unfold entry. simpl. rewrite Hc1, Hc2. reflexivity.
Qed.

Lemma tabulates_iff (P P' : Z -> Z -> Prop) (tb : tables) :
  (forall t s, in_table t s -> P t s <-> P' t s) ->
  tabulates P tb -> tabulates P' tb.
Proof using Type.
  clear HT Hlen Hlow Hupp.
  intros Hiff [Hs Hc]. split; [exact Hs|].
  intros t s Hin. destruct (Hc t s Hin) as [H1 H2].
  split; intros HP; [apply H1 | apply H2]; rewrite (Hiff t s Hin); exact HP.
Qed.

(** Writing the recursion's pair into an untouched cell extends the
    tabulated set by that state. *)
Lemma tabulates_extend (P : Z -> Z -> Prop) (tb tb' : tables) (t s : Z) :
  tabulates P tb -> in_table t s ->
  same_except t s tb tb' ->
  entry tb' t s = Some (value (Z.to_nat (T - 1 - t)) s) ->
  tabulates (fun t' s' => P t' s' \/ (t' = t /\ s' = s)) tb'.
Proof using Type.
  clear HT Hlen Hlow Hupp.
  intros [Hs Hc] Hin [Hs' Ho] He. split; [exact Hs'|].
  intros t' s' Hin'.
  destruct (decide ((t', s') = (t, s))) as [[= -> ->]|Hne].
  - split; [intros _; exact He | intros Hn; exfalso; apply Hn; right; auto].
  - rewrite (Ho t' s' Hin' Hne). destruct (Hc t' s' Hin') as [H1 H2]. split.
    + intros [HP|[-> ->]]; [apply H1, HP | contradiction].
    + intros Hn. apply H2. intros HP. apply Hn. left. exact HP.
Qed.

(** *** Reads of the opponent's schedule *)

Lemma read_bnow (t : Z) : 0 <= t < T -> getitem bnow t = Ret (bnow_at bnow t).
Proof using Hlen.
  clear HT Hlow Hupp.
  intros Ht. apply getitem_lookup; [lia|]. unfold bnow_at.
  destruct (lookup_lt_is_Some_2 bnow (Z.to_nat t)) as [y Hy]; [lia|].
  rewrite Hy. reflexivity.
Qed.

Lemma read_cumulative (t : Z) :
  1 <= t <= T ->
  getitem (cumulative_through bnow T) (t - 1) = Ret (opponent_before bnow t).
Proof using Type.
  clear HT Hlen Hlow Hupp.
  intros Ht. unfold cumulative_through.
  rewrite getitem_fmap_range by lia.
  unfold opponent_before. do 3 f_equal. lia.
Qed.

(** [b[T-2]]; when [T = 1] the index [-1] wraps to the only entry. *)
Lemma read_cumulative_last :
  getitem (cumulative_through bnow T) (T - 2)
  = Ret (opponent_before bnow (if bool_decide (T = 1) then 1 else T - 1)).
Proof using HT.
  clear Hlen Hlow Hupp.
  case_bool_decide as H1.
  - rewrite H1. reflexivity.
  - replace (T - 2) with ((T - 1) - 1) by lia. apply read_cumulative. lia.
Qed.

(** *** The loops *)

Lemma same_except_refl (tb : tables) (t s : Z) :
  well_shaped tb -> same_except t s tb tb.
Proof using Type.
  clear HT Hlen Hlow Hupp.
  intros Hs. split; [exact Hs | reflexivity]. Qed.

Lemma same_except_trans (tb1 tb2 tb3 : tables) (t s : Z) :
  same_except t s tb1 tb2 -> same_except t s tb2 tb3 -> same_except t s tb1 tb3.
Proof using Type.
  clear HT Hlen Hlow Hupp.
  intros [_ H12] [Hs H23]. split; [exact Hs|].
  intros t' s' Hin Hne. rewrite H23, H12 by assumption. reflexivity.
Qed.

Lemma last_step_spec (P : Z -> Z -> Prop) (tb : tables) (s : Z) :
  tabulates P tb -> in_table (T - 1) s -> ~ P (T - 1) s ->
  exists tb',
    last_step V bnow T kappa lower_limit upper_limit tb s = Ret tb' /\
    tabulates (fun t' s' => P t' s' \/ (t' = T - 1 /\ s' = s)) tb'.
Proof.
  intros Htab Hin HnP. unfold last_step.
  assert (Hk : Z.to_nat (T - 1 - (T - 1)) = 0%nat) by lia.
  case_bool_decide as Hg.
  - rewrite read_bnow by lia. cbn [rbind].
    rewrite read_cumulative_last. cbn [rbind].
    destruct (write_entry tb (T - 1) s
                (Fin (last_cost V bnow T kappa s)) s (proj1 Htab) Hin)
      as (dpt & dpa & Hw1 & Hw2 & Hse & He).
    unfold last_cost in Hw1. rewrite Hw1. cbn [rbind]. rewrite Hw2. cbn [rbind].
    eexists. split; [reflexivity|].
    apply (tabulates_extend P tb); try assumption.
    rewrite He, Hk. simpl. rewrite bool_decide_eq_true_2 by exact Hg. reflexivity.
  - exists tb. split; [reflexivity|].
    apply (tabulates_extend P tb); try assumption.
    + apply same_except_refl, Htab.
    + rewrite Hk. simpl. rewrite bool_decide_eq_false_2 by exact Hg.
      apply (proj2 Htab (T - 1) s Hin), HnP.
Qed.

(** The candidate cost read from tables whose row [t + 1] holds the
    recursion. *)
Lemma thisval_spec (P : Z -> Z -> Prop) (tb tb1 : tables) (t s q : Z) :
  tabulates P tb -> same_except t s tb tb1 ->
  0 <= t < T - 1 -> in_window t s -> lower_limit <= q <= upper_limit ->
  P (t + 1) (s - q) ->
  thisval V bnow T kappa upper_limit (dptable tb1) t s q
  = Ret (cost_add (value (Z.to_nat (T - 1 - (t + 1))) (s - q)).1
           (step_cost V bnow kappa t s q)).
Proof.
  intros Htab [Hs1 Hsame] Ht Hw Hq HP.
  assert (Hin : in_table (t + 1) (s - q)).
  { split; [lia|]. apply (window_in_table (t + 1)); [lia|].
    apply window_step; assumption. }
  assert (He : entry tb1 (t + 1) (s - q)
               = Some (value (Z.to_nat (T - 1 - (t + 1))) (s - q))).
  { rewrite Hsame; [|exact Hin|intros [= ? ?]; lia].
    apply (proj2 Htab (t + 1) (s - q) Hin), HP. }
  destruct (value (Z.to_nat (T - 1 - (t + 1))) (s - q)) as [c a] eqn:Ev.
  apply entry_read in He as [Hr _]; [|lia|apply Hin].
  unfold thisval, step_cost.
  case_bool_decide as Ht0.
  - rewrite Hr. cbn [rbind]. rewrite read_bnow by lia. reflexivity.
  - rewrite Hr. cbn [rbind]. rewrite read_bnow by lia. cbn [rbind].
    rewrite read_cumulative by lia. reflexivity.
Qed.

Lemma state_step_spec (P : Z -> Z -> Prop) (tb : tables) (t s : Z) :
  tabulates P tb -> 0 <= t < T - 1 -> in_window t s -> ~ P t s ->
  (forall q, lower_limit <= q <= upper_limit -> P (t + 1) (s - q)) ->
  exists tb',
    state_step V bnow T kappa lower_limit upper_limit t tb s = Ret tb' /\
    tabulates (fun t' s' => P t' s' \/ (t' = t /\ s' = s)) tb'.
Proof.
  intros Htab Ht Hw HnP Hnext.
  assert (Hin : in_table t s).
  { split; [lia|]. apply (window_in_table t); [lia | exact Hw]. }
  set (k := Z.to_nat (T - 1 - (t + 1))).
  set (cand := fun q => cost_add (value k (s - q)).1 (step_cost V bnow kappa t s q)).
  destruct (foldM_invariant (try_q V bnow T kappa upper_limit t s)
              (fun done st =>
                 same_except t s tb st.1 /\
                 entry st.1 t s = Some (foldl (pick cand) (Inf, 0) done) /\
                 st.2 = (foldl (pick cand) (Inf, 0) done).1)
              (range lower_limit (upper_limit + 1)) (tb, Inf))
    as (st & Hrun & Hse & He & _).
  { simpl. split; [apply same_except_refl, Htab|]. split; [|reflexivity].
    apply (proj2 Htab t s Hin), HnP. }
  { intros done q rest [tb1 m] Hsplit (Hse & He & Hm). simpl in Hse, He, Hm.
    apply range_split in Hsplit as (Hq & _ & _).
    unfold try_q. cbn [fst snd].
    rewrite (thisval_spec P tb tb1 t s q) by (auto; try lia; apply Hnext; lia).
    cbn [rbind]. fold k. fold (cand q).
    rewrite scan_snoc.
    assert (Hp : pick cand (foldl (pick cand) (Inf, 0) done) q
                 = if cost_ltb (cand q) m then (cand q, q)
                   else foldl (pick cand) (Inf, 0) done).
    { unfold pick at 1. rewrite <- Hm. reflexivity. }
    rewrite Hp. clear Hp.
    destruct (cost_ltb (cand q) m) eqn:Elt.
    - destruct (write_entry tb1 t s (cand q) q (proj1 Hse) Hin)
        as (dpt & dpa & Hw1 & Hw2 & Hse2 & He2).
      rewrite Hw1. cbn [rbind]. rewrite Hw2. cbn [rbind].
      eexists. split; [reflexivity|]. cbn [fst snd].
      split; [eapply same_except_trans; eauto|]. split; [exact He2 | reflexivity].
    - eexists. split; [reflexivity|]. cbn [fst snd].
      split; [exact Hse|]. split; [exact He | exact Hm]. }
  unfold state_step. rewrite Hrun. cbn [rbind].
  exists st.1. split; [reflexivity|].
  apply (tabulates_extend P tb); try assumption.
  rewrite He. f_equal.
  assert (Hk1 : Z.to_nat (T - 1 - t) = S k) by lia.
  assert (Hk2 : T - 1 - Z.of_nat (S k) = t) by lia.
  rewrite Hk1, value_S, Hk2. reflexivity.
Qed.

Lemma time_step_spec (P : Z -> Z -> Prop) (tb : tables) (t : Z) :
  tabulates P tb -> 0 <= t < T - 1 ->
  (forall s, ~ P t s) ->
  (forall s, in_window (t + 1) s -> P (t + 1) s) ->
  exists tb',
    time_step V bnow T kappa lower_limit upper_limit tb t = Ret tb' /\
    tabulates (fun t' s' => P t' s' \/ (t' = t /\ in_window t s')) tb'.
Proof.
  intros Htab Ht HnP Hnext. unfold time_step.
  destruct (foldM_invariant
              (state_step V bnow T kappa lower_limit upper_limit t)
              (fun done tb' =>
                 tabulates (fun t' s' => P t' s' \/ (t' = t /\ s' ∈ done)) tb')
              (range (min_remaining V upper_limit t)
                     (max_remaining V lower_limit t + 1)) tb)
    as (tb' & Hrun & Hfin).
  { apply (tabulates_iff P); [|exact Htab].
    intros t' s' _. split; [auto|]. intros [H|[_ H]]; [exact H | inversion H]. }
  { intros done s rest tb1 Hsplit Htab1.
    apply range_split in Hsplit as (Hs & -> & _).
    assert (Hw : in_window t s) by (unfold in_window; lia).
    destruct (state_step_spec _ tb1 t s Htab1 Ht Hw) as (tb2 & Hrun & Htab2).
    - intros [H|[_ H]]; [exact (HnP s H)|]. apply elem_of_range in H. lia.
    - intros q Hq. left. apply Hnext. apply window_step; assumption.
    - exists tb2. split; [exact Hrun|].
      revert Htab2. apply tabulates_iff. intros t' s' _.
      rewrite elem_of_app, list_elem_of_singleton. tauto. }
  exists tb'. split; [exact Hrun|].
  revert Hfin. apply tabulates_iff. intros t' s' _.
  rewrite elem_of_range. unfold in_window. 
  split; (intros [H|[H1 H2]]; [left; exact H | right; split; [exact H1 | lia]]).
Qed.

Lemma size_pos : 1 <= size.
Proof using HT Hlow Hupp.
  clear Hlen.
  rewrite size_eq.
  assert (0 <= (upper_limit - lower_limit) * T) by (apply Z.mul_nonneg_nonneg; lia).
  lia.
Qed.

Lemma elem_of_rev_range (lo hi t : Z) : t ∈ rev (range lo hi) <-> lo <= t < hi.
Proof using Type.
  clear HT Hlen Hlow Hupp.
  rewrite <- elem_of_range, !list_elem_of_In. symmetry. apply in_rev.
Qed.

Lemma in_table_last_row (s : Z) :
  in_table (T - 1) s <->
  min_remaining V upper_limit T <= s < max_remaining V lower_limit T + 1.
Proof using HT.
  clear Hlen Hlow Hupp.
  unfold in_table, s_to_index, s_size. lia.
Qed.

(** After initialisation and backward induction the tables hold the
    recursion on the last row and on the window of every earlier
    step; all other cells keep [np.inf] and [0]. *)
Lemma populate_spec :
  exists tb,
    populate V bnow T kappa lower_limit upper_limit = Ret tb /\
    tabulates (fun t s => t = T - 1 \/ (0 <= t < T - 1 /\ in_window t s)) tb.
Proof.
  unfold populate. pose proof size_pos as Hsize.
  destruct (np_full_cell T size Inf) as (dpt0 & Hf1 & Hs1 & Hc1); [lia..|].
  destruct (np_full_cell T size 0) as (dpa0 & Hf2 & Hs2 & Hc2); [lia..|].
  rewrite Hf1. cbn [rbind]. rewrite Hf2. cbn [rbind].
  assert (H0 : tabulates (fun _ _ => False) (Tables dpt0 dpa0)).
  { split; [split; assumption|]. intros t s [Ht Hi].
    split; [contradiction|]. intros _. unfold entry. simpl.
    rewrite Hc1, Hc2 by lia. reflexivity. }
  destruct (foldM_invariant
              (last_step V bnow T kappa lower_limit upper_limit)
              (fun done tb => tabulates (fun t s => t = T - 1 /\ s ∈ done) tb)
              (range (min_remaining V upper_limit T)
                     (max_remaining V lower_limit T + 1))
              (Tables dpt0 dpa0))
    as (tb1 & Hrun1 & Htab1).
  { revert H0. apply tabulates_iff. intros t s _.
    split; [contradiction|]. intros [_ H]. inversion H. }
  { intros done s rest tb Hsplit Htab.
    apply range_split in Hsplit as (Hs & -> & _).
    destruct (last_step_spec _ tb s Htab) as (tb' & Hrun & Htab').
    - apply in_table_last_row. exact Hs.
    - intros [_ H]. apply elem_of_range in H. lia.
    - exists tb'. split; [exact Hrun|].
      revert Htab'. apply tabulates_iff. intros t' s' _.
      rewrite elem_of_app, list_elem_of_singleton. tauto. }
  rewrite Hrun1. cbn [rbind].
  destruct (foldM_invariant
              (time_step V bnow T kappa lower_limit upper_limit)
              (fun done tb =>
                 tabulates (fun t s => t = T - 1 \/ (t ∈ done /\ in_window t s)) tb)
              (rev (range 0 (T - 1))) tb1)
    as (tb2 & Hrun2 & Htab2).
  { revert Htab1. apply tabulates_iff. intros t s Hin. split.
    - intros [H _]. left. exact H.
    - intros [->|[H _]]; [|inversion H].
      split; [reflexivity|]. apply elem_of_range, in_table_last_row, Hin. }
  { intros done t rest tb Hsplit Htab.
    apply rev_range_split in Hsplit as (Ht & -> & _).
    destruct (time_step_spec _ tb t Htab) as (tb' & Hrun & Htab').
    - lia.
    - intros s [H|[H _]]; [lia|]. apply elem_of_rev_range in H. lia.
    - intros s Hw. destruct (decide (t + 1 = T - 1)) as [He|Hne]; [left; exact He|].
      right. split; [apply elem_of_rev_range; lia | exact Hw].
    - exists tb'. split; [exact Hrun|].
      revert Htab'. apply tabulates_iff. intros t' s' _.
      rewrite elem_of_app, list_elem_of_singleton.
      split.
      + intros [[H|H]|[-> H]]; [left; exact H | right; tauto | right; tauto].
      + intros [H|[[H| ->] Hw]]; [left; left; exact H | left; right; tauto | right; tauto]. }
  exists tb2. split; [exact Hrun2|].
  revert Htab2. apply tabulates_iff. intros t s _.
  rewrite elem_of_rev_range. tauto.
Qed.

(** *** Reconstruction *)

Lemma policy_unfold (k : nat) (s : Z) :
  policy V bnow T kappa lower_limit upper_limit k s
  = (value k s).2 ::
    match k with
    | O => []
    | S k' => policy V bnow T kappa lower_limit upper_limit k'
                (s - (value k s).2)
    end.
Proof using Type.
  clear HT Hlen Hlow Hupp.
  destruct k; reflexivity. Qed.

Lemma traverse_spec (tb : tables) :
  tabulates (fun t s => t = T - 1 \/ (0 <= t < T - 1 /\ in_window t s)) tb ->
  exists st,
    foldM (traverse V T upper_limit tb) (range 0 T)
      (replicate (Z.to_nat T) 0, V) = Ret st /\
    st.1 = policy V bnow T kappa lower_limit upper_limit (Z.to_nat (T - 1)) V.
Proof.
  intros Htab.
  set (full := policy V bnow T kappa lower_limit upper_limit (Z.to_nat (T - 1)) V).
  destruct (foldM_invariant (traverse V T upper_limit tb)
              (fun done st =>
                 let j := Z.of_nat (length done) in
                 exists acts,
                   st.1 = acts ++ replicate (Z.to_nat (T - j)) 0 /\
                   Z.of_nat (length acts) = j /\
                   in_window j st.2 /\
                   (j < T ->
                    acts ++ policy V bnow T kappa lower_limit upper_limit
                              (Z.to_nat (T - 1 - j)) st.2 = full) /\
                   (j = T -> acts = full))
              (range 0 T) (replicate (Z.to_nat T) 0, V))
    as (st & Hrun & acts & Hst & Hla & _ & _ & Hfull).
  { exists []. simpl. split; [f_equal; f_equal; lia|]. split; [reflexivity|].
    split; [unfold in_window, min_remaining, max_remaining; lia|].
    split; [intros _; unfold full; f_equal; f_equal; lia | lia]. }
  { intros done x rest [anow vol] Hsplit (acts & Hst & Hla & Hw & Hpol & _).
    apply range_split in Hsplit as (Hx & -> & _).
    rewrite length_range in *. cbn [fst snd] in *.
    replace (Z.of_nat (Z.to_nat (x - 0))) with x in * by lia.
    specialize (Hpol ltac:(lia)).
    assert (Hin : in_table x vol).
    { split; [lia|]. apply (window_in_table x); [lia | exact Hw]. }
    assert (He : entry tb x vol = Some (value (Z.to_nat (T - 1 - x)) vol)).
    { apply (proj2 Htab x vol Hin).
      destruct (decide (x = T - 1)); [left; assumption | right; split; [lia|assumption]]. }
    set (k := Z.to_nat (T - 1 - x)) in *.
    pose proof (value_action_bounds V bnow T kappa lower_limit upper_limit k vol
                  ltac:(lia)) as Hb.
    destruct (value k vol) as [c a] eqn:Ev. cbn [snd] in Hb.
    apply entry_read in He as [_ Hr]; [|lia|apply Hin].
    unfold traverse. cbn [fst snd]. rewrite Hr. cbn [rbind].
    rewrite setitem_insert
      by (rewrite Hst, length_app, length_replicate; lia).
    cbn [rbind]. eexists. split; [reflexivity|].
    rewrite length_app. cbn [length fst snd].
    rewrite length_range.
    replace (Z.of_nat (Z.to_nat (x - 0) + 1)) with (x + 1) by lia.
    exists (acts ++ [a]).
    split.
    { rewrite Hst.
      replace (Z.to_nat (T - x)) with (S (Z.to_nat (T - (x + 1)))) by lia.
      rewrite insert_app_r_alt by lia.
      replace (Z.to_nat x - length acts)%nat with 0%nat by lia.
      simpl. rewrite <- app_assoc. reflexivity. }
    split; [rewrite length_app; simpl; lia|].
    split; [apply window_step; assumption|].
    rewrite policy_unfold, Ev in Hpol. cbn [snd] in Hpol.
    split.
    - intros Hlt. rewrite <- Hpol, <- app_assoc. simpl.
      replace k with (S (Z.to_nat (T - 1 - (x + 1)))) by lia. reflexivity.
    - intros Heq. rewrite <- Hpol.
      replace k with 0%nat by lia. reflexivity. }
  exists st. split; [exact Hrun|].
  rewrite length_range in *.
  rewrite Hst, Hfull by lia.
  replace (Z.to_nat (T - Z.of_nat (Z.to_nat (T - 0)))) with 0%nat by lia.
  simpl. apply app_nil_r.
Qed.

(** On well-formed inputs with [lower_limit <= 0 <= upper_limit] the
    optimiser returns the trades of the recursion from state [V]. *)
Lemma best_respond_policy :
  best_respond V bnow T kappa lower_limit upper_limit
  = Ret (policy V bnow T kappa lower_limit upper_limit (Z.to_nat (T - 1)) V).
Proof.
  unfold best_respond.
  destruct populate_spec as (tb & -> & Htab). cbn [rbind].
  unfold np_zeros. rewrite bool_decide_eq_false_2 by lia. cbn [rbind].
  destruct (traverse_spec tb Htab) as (st & -> & <-). reflexivity.
Qed.

End Refinement.

(** ** Guarantees when [lower_limit <= 0 <= upper_limit] *)

Section Guarantees.

Variables (V : Z) (bnow : list Q) (T : Z) (kappa : Q).
Variables (lower_limit upper_limit : Z).
Hypothesis HT : 1 <= T.
Hypothesis Hlen : Z.of_nat (length bnow) = T.
Hypothesis Hlow : lower_limit <= 0.
Hypothesis Hupp : 0 <= upper_limit.

Local Abbreviation value := (value V bnow T kappa lower_limit upper_limit).
Local Abbreviation policy := (policy V bnow T kappa lower_limit upper_limit).

Lemma best_respond_length (anow : list Z) :
  best_respond V bnow T kappa lower_limit upper_limit = Ret anow ->
  Z.of_nat (length anow) = T.
Proof.
  rewrite best_respond_policy by assumption. intros [= <-].
  rewrite policy_length. lia.
Qed.

Lemma best_respond_bounds (anow : list Z) :
  best_respond V bnow T kappa lower_limit upper_limit = Ret anow ->
  Forall (fun q => lower_limit <= q <= upper_limit) anow.
Proof.
  rewrite best_respond_policy by assumption. intros [= <-].
  apply policy_bounds. lia.
Qed.

Lemma start_fin_iff :
  is_fin (value (Z.to_nat (T - 1)) V).1 <->
  T * lower_limit <= V <= T * upper_limit.
Proof.
  rewrite value_fin_iff by lia.
  replace (Z.of_nat (Z.to_nat (T - 1)) + 1) with T by lia. reflexivity.
Qed.

(** Budget conservation and bound adherence on feasible instances. *)
Lemma best_respond_feasible :
  T * lower_limit <= V <= T * upper_limit ->
  exists anow,
    best_respond V bnow T kappa lower_limit upper_limit = Ret anow /\
    feasible V T lower_limit upper_limit anow.
Proof.
  intros Hfeas. eexists. split; [apply best_respond_policy; assumption|].
  split; [rewrite policy_length; lia|]. split.
  - apply policy_bounds. lia.
  - apply policy_sum. apply start_fin_iff. exact Hfeas.
Qed.

Lemma feasible_single (a : list Z) :
  T = 1 -> feasible V T lower_limit upper_limit a -> a = [V].
Proof.
  intros -> (Hl & _ & Hs). destruct a as [|q [|? ?]]; simpl in Hl; try lia.
  rewrite sumZ_cons in Hs. change (sumZ []) with 0 in Hs. f_equal. lia.
Qed.

(** Optimality: the returned trajectory is feasible and no feasible
    trajectory has a smaller [total_cost]. *)
Theorem best_respond_optimal :
  T * lower_limit <= V <= T * upper_limit ->
  exists anow c,
    best_respond V bnow T kappa lower_limit upper_limit = Ret anow /\
    feasible V T lower_limit upper_limit anow /\
    total_cost (inject_Z <$> anow) bnow kappa = Ret c /\
    forall a, feasible V T lower_limit upper_limit a ->
      exists c', total_cost (inject_Z <$> a) bnow kappa = Ret c' /\ (c <= c')%Q.
Proof.
  intros Hfeas.
  destruct (best_respond_feasible Hfeas) as (anow & Hbr & Hfa).
  destruct (total_cost_is_formula (inject_Z <$> anow) bnow kappa) as (c & Hc & _).
  { rewrite length_fmap. destruct Hfa as [Hl _]. lia. }
  exists anow, c. split; [exact Hbr|]. split; [exact Hfa|]. split; [exact Hc|].
  intros a Ha.
  destruct (decide (T = 1)) as [H1|H1].
  - rewrite (feasible_single a H1 Ha).
    rewrite (feasible_single anow H1 Hfa) in Hc.
    exists c. split; [exact Hc | apply Qle_refl].
  - assert (HT2 : 2 <= T) by lia.
    destruct Ha as (Hla & Hba & Hsa). destruct Hfa as (Hl & _ & Hs).
    destruct (total_cost_run_cost V bnow T kappa HT2 Hlen a Hla Hsa)
      as (c' & Hc' & Hq').
    destruct (total_cost_run_cost V bnow T kappa HT2 Hlen anow Hl Hs)
      as (c2 & Hc2 & Hq2).
    rewrite Hc in Hc2. injection Hc2 as <-.
    exists c'. split; [exact Hc'|].
    destruct (value_le_run_cost V bnow T kappa lower_limit upper_limit
                (Z.to_nat (T - 1)) V a ltac:(lia) Hba Hsa) as (c0 & Hv & Hle).
    pose proof (value_eq_run_cost V bnow T kappa lower_limit upper_limit
                  (Z.to_nat (T - 1)) V c0 Hv) as Heq.
    rewrite best_respond_policy in Hbr by assumption. injection Hbr as <-.
    rewrite Hq2, Hq', <- Heq. exact Hle.
Qed.

End Guarantees.

(** ** The tie-break of the backward-induction step *)

Lemma getitem_insert_ne {A : Type} (m : list A) (k : nat) (x : A) (r : Z) :
  0 <= r -> Z.to_nat r <> k -> getitem (<[k := x]> m) r = getitem m r.
Proof.
  intros Hr Hne. unfold getitem. rewrite length_insert.
  unfold norm_index. case_bool_decide as H1; cbn [rbind].
  - rewrite list_lookup_insert_ne by auto. reflexivity.
  - rewrite bool_decide_eq_false_2 by lia. reflexivity.
Qed.

Lemma getitem_insert_eq {A : Type} (m : list A) (n : nat) (i : Z) (k : nat) (x : A) :
  length m = n -> norm_index n i = Ret k -> getitem (<[k := x]> m) i = Ret x.
Proof.
  intros Hn Hk. unfold getitem. rewrite length_insert, Hn, Hk. cbn [rbind].
  rewrite list_lookup_insert_eq; [reflexivity|].
  apply norm_index_Ret in Hk. lia.
Qed.

(** [m[r, c] = x] on a well-shaped array, for a row [r >= 0] and a
    column index that numpy accepts (possibly negative). *)
Lemma setitem2_spec {A : Type} (R C : nat) (m : list (list A)) (r c : Z)
    (c0 : nat) (x : A) :
  shaped R C m -> 0 <= r < Z.of_nat R -> norm_index C c = Ret c0 ->
  exists m', setitem2 m r c x = Ret m' /\ shaped R C m' /\
    getitem2 m' r c = Ret x /\
    forall r', 0 <= r' -> r' <> r -> getitem m' r' = getitem m r'.
Proof.
  intros Hs Hr Hc.
  destruct (lookup_lt_is_Some_2 m (Z.to_nat r)) as [row Hrow].
  { destruct Hs as [-> _]. lia. }
  pose proof (shaped_lookup R C m _ row Hs Hrow) as Hlen.
  assert (Hlm : length m = R) by apply Hs.
  exists (<[Z.to_nat r := <[c0 := x]> row]> m).
  split; [|split; [|split]].
  - unfold setitem2. rewrite (getitem_lookup m r row) by (lia || assumption).
    cbn [rbind]. unfold setitem at 1. rewrite Hlen, Hc. cbn [rbind].
    apply setitem_insert. lia.
  - split; [rewrite length_insert; exact Hlm|].
    apply Forall_insert; [apply Hs|]. rewrite length_insert. exact Hlen.
  - unfold getitem2.
    rewrite (getitem_lookup _ r (<[c0 := x]> row)) by
      (try lia; apply list_lookup_insert_eq; lia).
    cbn [rbind]. apply (getitem_insert_eq row C); assumption.
  - intros r' Hr' Hne. apply getitem_insert_ne; lia.
Qed.

Lemma thisval_row (V : Z) (bnow : list Q) (T : Z) (kappa : Q) (upper_limit : Z)
    (dpt dpt' : list (list cost)) (t s q : Z) :
  getitem dpt' (t + 1) = getitem dpt (t + 1) ->
  thisval V bnow T kappa upper_limit dpt' t s q
  = thisval V bnow T kappa upper_limit dpt t s q.
Proof. intros H. unfold thisval, getitem2. rewrite H. reflexivity. Qed.

(** C8. In the backward-induction step for a state [(t, s)] with
    [t < T - 1]: if the candidate costs of all trades in
    [[lower_limit, upper_limit]] evaluate, and [q0] is the smallest trade
    attaining their minimum, which is finite, then after the step the
    action recorded in [dpaction[t][s]] is [q0] and [dptable[t][s]] holds
    its cost.  Trades scanned before [q0] are strictly more expensive, and
    a later trade of equal cost does not replace [q0] because the
    comparison is strict. *)
Theorem tie_break_first_minimum
    (V : Z) (bnow : list Q) (T : Z) (kappa : Q) (lower_limit upper_limit : Z)
    (tb : tables) (t s q0 : Z) (cand : Z -> cost) (c0 : nat) :
  well_shaped V T lower_limit upper_limit tb ->
  0 <= t < T - 1 ->
  norm_index (Z.to_nat (s_size V T lower_limit upper_limit))
    (s_to_index V T upper_limit s) = Ret c0 ->
  (forall q, lower_limit <= q <= upper_limit ->
     thisval V bnow T kappa upper_limit (dptable tb) t s q = Ret (cand q)) ->
  lower_limit <= q0 <= upper_limit ->
  is_fin (cand q0) ->
  (forall q, lower_limit <= q <= upper_limit -> cost_le (cand q0) (cand q)) ->
  (forall q, lower_limit <= q < q0 -> ~ cost_le (cand q) (cand q0)) ->
  exists tb',
    state_step V bnow T kappa lower_limit upper_limit t tb s = Ret tb' /\
    getitem2 (dpaction tb') t (s_to_index V T upper_limit s) = Ret q0 /\
    getitem2 (dptable tb') t (s_to_index V T upper_limit s) = Ret (cand q0).
Proof.
  intros [Hs1 Hs2] Ht Hc0 Hcand Hq0 Hfin Hmin Hfirst.
  set (i := s_to_index V T upper_limit s) in *.
  set (C := Z.to_nat (s_size V T lower_limit upper_limit)) in *.
  destruct (foldM_invariant (try_q V bnow T kappa upper_limit t s)
              (fun done st =>
                 let acc := foldl (pick cand) (Inf, 0) done in
                 shaped (Z.to_nat T) C (dptable st.1) /\
                 shaped (Z.to_nat T) C (dpaction st.1) /\
                 getitem (dptable st.1) (t + 1) = getitem (dptable tb) (t + 1) /\
                 st.2 = acc.1 /\
                 (is_fin acc.1 ->
                  getitem2 (dptable st.1) t i = Ret acc.1 /\
                  getitem2 (dpaction st.1) t i = Ret acc.2))
              (range lower_limit (upper_limit + 1)) (tb, Inf))
    as (st & Hrun & _ & _ & _ & _ & Hres).
  { simpl. split; [exact Hs1|]. split; [exact Hs2|].
    split; [reflexivity|]. split; [reflexivity|]. intros []. }
  { intros done q rest [tb1 m] Hsplit (Hh1 & Hh2 & Hrow & Hm & Hacc).
    cbn [fst snd] in *.
    apply range_split in Hsplit as (Hq & _ & _).
    unfold try_q. cbn [fst snd].
    rewrite (thisval_row _ _ _ _ _ _ _ _ _ _ Hrow), Hcand by lia. cbn [rbind].
    rewrite scan_snoc.
    assert (Hp : pick cand (foldl (pick cand) (Inf, 0) done) q
                 = if cost_ltb (cand q) m then (cand q, q)
                   else foldl (pick cand) (Inf, 0) done).
    { unfold pick at 1. rewrite <- Hm. reflexivity. }
    rewrite Hp. clear Hp. fold i.
    destruct (cost_ltb (cand q) m) eqn:Elt.
    - destruct (setitem2_spec _ _ (dptable tb1) t i c0 (cand q) Hh1)
        as (dpt & Hw1 & Hs1' & Hg1 & Ho1); [lia | exact Hc0 |].
      destruct (setitem2_spec _ _ (dpaction tb1) t i c0 q Hh2)
        as (dpa & Hw2 & Hs2' & Hg2 & _); [lia | exact Hc0 |].
      rewrite Hw1. cbn [rbind]. rewrite Hw2. cbn [rbind].
      eexists. split; [reflexivity|]. cbn [fst snd dptable dpaction].
      split; [exact Hs1'|]. split; [exact Hs2'|].
      split; [rewrite Ho1 by lia; exact Hrow|].
      split; [reflexivity|]. intros _. split; assumption.
    - eexists. split; [reflexivity|]. cbn [fst snd].
      split; [exact Hh1|]. split; [exact Hh2|].
      split; [exact Hrow|]. split; [exact Hm | exact Hacc]. }
  unfold state_step. rewrite Hrun. cbn [rbind].
  exists st.1. split; [reflexivity|].
  rewrite (scan_first_minimum cand lower_limit (upper_limit + 1) q0) in Hres.
  - cbn [fst snd] in Hres. destruct (Hres Hfin) as [H1 H2]. split; assumption.
  - lia.
  - exact Hfin.
  - intros q Hq. apply Hmin. lia.
  - exact Hfirst.
Qed.

Lemma tie_break_first_minimum_witness :
  exists tb',
    state_step 4 [1; 1]%Q 2 (1 # 2) 0 4 0
      (Tables [[Inf; Inf; Inf; Inf; Inf; Inf; Inf; Inf; Inf];
               [Inf; Inf; Inf; Inf; Fin 0; Fin 1; Fin 7; Fin 12; Fin 20]]
              [[0; 0; 0; 0; 0; 0; 0; 0; 0]; [0; 0; 0; 0; 0; 1; 2; 3; 4]]) 4
    = Ret tb' /\
    getitem2 (dpaction tb') 0 (s_to_index 4 2 4 4) = Ret 2 /\
    getitem2 (dptable tb') 0 (s_to_index 4 2 4 4)
    = Ret (cost_add (nth (Z.to_nat (8 - 2)) [Inf; Inf; Inf; Inf; Fin 0; Fin 1; Fin 7; Fin 12; Fin 20] Inf)
             (inject_Z 2 * (inject_Z 2 + 1))%Q).
Proof.
  apply (tie_break_first_minimum 4 [1; 1]%Q 2 (1 # 2) 0 4 _ 0 4 2
           (fun q => cost_add (nth (Z.to_nat (8 - q))
                                 [Inf; Inf; Inf; Inf; Fin 0; Fin 1; Fin 7; Fin 12; Fin 20] Inf)
                       (inject_Z q * (inject_Z q + 1))%Q) 8%nat).
  - split; split; [reflexivity | repeat constructor | reflexivity | repeat constructor].
  - lia.
  - reflexivity.
  - intros q Hq.
    assert (Hc : q = 0 \/ q = 1 \/ q = 2 \/ q = 3 \/ q = 4) by lia.
    destruct Hc as [->|[->|[->|[->| ->]]]]; reflexivity.
  - lia.
  - exact I.
  - intros q Hq.
    assert (Hc : q = 0 \/ q = 1 \/ q = 2 \/ q = 3 \/ q = 4) by lia.
    destruct Hc as [->|[->|[->|[->| ->]]]]; vm_compute; try exact I; discriminate.
  - intros q Hq.
    assert (Hc : q = 0 \/ q = 1) by lia.
    destruct Hc as [->| ->]; vm_compute; intros H; apply H; reflexivity.
Defined.

(** ** Unreached states and infeasible volumes *)

Section Unreached.

Variables (V : Z) (bnow : list Q) (T : Z) (kappa : Q).
Variables (lower_limit upper_limit : Z).
Hypothesis HT : 1 <= T.
Hypothesis Hlen : Z.of_nat (length bnow) = T.
Hypothesis Hlow : lower_limit <= 0.
Hypothesis Hupp : 0 <= upper_limit.

Local Abbreviation idx := (s_to_index V T upper_limit).
Local Abbreviation size := (s_size V T lower_limit upper_limit).
Local Abbreviation value := (value V bnow T kappa lower_limit upper_limit).
Local Abbreviation policy := (policy V bnow T kappa lower_limit upper_limit).
Local Abbreviation in_table := (in_table V T lower_limit upper_limit).
Local Abbreviation in_window := (in_window V lower_limit upper_limit).
Local Abbreviation entry := (entry V T upper_limit).
Local Abbreviation tabulates := (tabulates V bnow T kappa lower_limit upper_limit).
Local Abbreviation populated :=
  (fun t s => t = T - 1 \/ (0 <= t < T - 1 /\ in_window t s)).






(** What the code reads at a state of the window of step [t]. *)
Lemma populated_read (tb : tables) (t s : Z) :
  tabulates populated tb -> 0 <= t < T -> in_window t s ->
  getitem2 (dptable tb) t (idx s) = Ret (value (Z.to_nat (T - 1 - t)) s).1 /\
  getitem2 (dpaction tb) t (idx s) = Ret (value (Z.to_nat (T - 1 - t)) s).2.
Proof.
  intros Htab Ht Hw.
  assert (Hin : in_table t s).
  { split; [lia|].
    apply (window_in_table V T lower_limit upper_limit Hlow Hupp t); [lia | exact Hw]. }
  assert (He : entry tb t s = Some (value (Z.to_nat (T - 1 - t)) s)).
  { apply (proj2 Htab t s Hin).
    destruct (decide (t = T - 1)); [left; assumption | right; split; [lia | exact Hw]]. }
  destruct (value (Z.to_nat (T - 1 - t)) s) as [c a].
  apply entry_read in He; [exact He | lia | apply Hin].
Qed.

End Unreached.


(** ** Extent of the defect: a positive lower limit always raises *)

Lemma getitem_Ret {A : Type} (l : list A) (i : Z) (x : A) :
  getitem l i = Ret x ->
  exists k, norm_index (length l) i = Ret k /\ l !! k = Some x.
Proof.
  unfold getitem. intros H. apply rbind_Ret_inv in H as (k & Hk & H).
  exists k. split; [exact Hk|]. destruct (l !! k); [congruence | discriminate].
Qed.

Lemma setitem_Ret {A : Type} (l l' : list A) (i : Z) (x : A) :
  setitem l i x = Ret l' -> length l' = length l.
Proof.
  unfold setitem. intros H. apply rbind_Ret_inv in H as (k & _ & [= <-]).
  apply length_insert.
Qed.

Lemma setitem2_shaped {A : Type} (R C : nat) (m m' : list (list A)) (r c : Z) (x : A) :
  shaped R C m -> setitem2 m r c x = Ret m' -> shaped R C m'.
Proof.
  intros Hs H. unfold setitem2 in H.
  apply rbind_Ret_inv in H as (row & Hrow & H).
  apply rbind_Ret_inv in H as (row' & Hrow' & H).
  apply getitem_Ret in Hrow as (k & _ & Hk).
  apply setitem_Ret in Hrow'.
  unfold setitem in H. apply rbind_Ret_inv in H as (k' & _ & [= <-]).
  split; [rewrite length_insert; apply Hs|].
  apply Forall_insert; [apply Hs|].
  rewrite Hrow'. exact (shaped_lookup R C m k row Hs Hk).
Qed.

Section Shapes.

Variables (V : Z) (bnow : list Q) (T : Z) (kappa : Q).
Variables (lower_limit upper_limit : Z).

Local Abbreviation well_shaped := (well_shaped V T lower_limit upper_limit).

Lemma last_step_shaped (tb tb' : tables) (s : Z) :
  well_shaped tb ->
  last_step V bnow T kappa lower_limit upper_limit tb s = Ret tb' ->
  well_shaped tb'.
Proof.
  intros [Hs1 Hs2]. unfold last_step. case_bool_decide as Hg.
  - intros H.
    apply rbind_Ret_inv in H as (bl & _ & H).
    apply rbind_Ret_inv in H as (bp & _ & H).
    apply rbind_Ret_inv in H as (dpt & Hdpt & H).
    apply rbind_Ret_inv in H as (dpa & Hdpa & [= <-]).
    split; simpl; eapply setitem2_shaped; eauto.
  - intros [= <-]. split; assumption.
Qed.

Lemma try_q_shaped (t s q : Z) (st st' : tables * cost) :
  well_shaped st.1 ->
  try_q V bnow T kappa upper_limit t s st q = Ret st' ->
  well_shaped st'.1.
Proof.
  intros [Hs1 Hs2]. unfold try_q. intros H.
  apply rbind_Ret_inv in H as (v & _ & H).
  destruct (cost_ltb v st.2).
  - apply rbind_Ret_inv in H as (dpt & Hdpt & H).
    apply rbind_Ret_inv in H as (dpa & Hdpa & [= <-]).
    split; simpl; eapply setitem2_shaped; eauto.
  - injection H as <-. split; assumption.
Qed.

Lemma state_step_shaped (t s : Z) (tb tb' : tables) :
  well_shaped tb ->
  state_step V bnow T kappa lower_limit upper_limit t tb s = Ret tb' ->
  well_shaped tb'.
Proof.
  intros Hs. unfold state_step. intros H.
  apply rbind_Ret_inv in H as (st & Hrun & [= <-]).
  apply (foldM_invariant_ret _ (fun _ st => well_shaped st.1) _ _ _ Hrun);
    [exact Hs|].
  intros done q rest st1 st2 _ H1 H2. eapply try_q_shaped; eauto.
Qed.

Lemma time_step_shaped (t : Z) (tb tb' : tables) :
  well_shaped tb ->
  time_step V bnow T kappa lower_limit upper_limit tb t = Ret tb' ->
  well_shaped tb'.
Proof.
  intros Hs Hrun. unfold time_step in Hrun.
  apply (foldM_invariant_ret _ (fun _ tb => well_shaped tb) _ _ _ Hrun);
    [exact Hs|].
  intros done s rest tb1 tb2 _ H1 H2. eapply state_step_shaped; eauto.
Qed.

(** Whenever the tables are built, they have [T] rows of [s_size]
    columns, whatever the limits. *)
Lemma populate_shaped (tb : tables) :
  populate V bnow T kappa lower_limit upper_limit = Ret tb ->
  0 <= s_size V T lower_limit upper_limit /\ well_shaped tb.
Proof.
  unfold populate. intros H.
  apply rbind_Ret_inv in H as (dpt0 & H1 & H).
  apply rbind_Ret_inv in H as (dpa0 & H2 & H).
  apply rbind_Ret_inv in H as (tb1 & Hinit & Hrun).
  unfold np_full in H1, H2. case_bool_decide as Hneg; [discriminate|].
  injection H1 as <-. injection H2 as <-.
  split; [lia|].
  apply (foldM_invariant_ret _ (fun _ tb => well_shaped tb) _ _ _ Hrun).
  - apply (foldM_invariant_ret _ (fun _ tb => well_shaped tb) _ _ _ Hinit).
    + split; (split; [apply length_replicate|]);
        apply Forall_replicate, length_replicate.
    + intros done s rest tb2 tb3 _ Hs Hb. eapply last_step_shaped; eauto.
  - intros done t rest tb2 tb3 _ Hs Hb. eapply time_step_shaped; eauto.
Qed.

(** With [lower_limit > 0] the start state [V] has index
    [T * upper_limit], beyond the last column: the first read of the
    reconstruction raises unless an earlier access already did. *)
Lemma positive_lower_limit_raises :
  1 <= T -> 0 < lower_limit ->
  exists e, best_respond V bnow T kappa lower_limit upper_limit = Raise e.
Proof.
  intros HT Hlow. unfold best_respond.
  destruct (populate V bnow T kappa lower_limit upper_limit) as [tb|e] eqn:Hpop;
    [|exists e; reflexivity].
  apply populate_shaped in Hpop as (Hsize & _ & Hs).
  cbn [rbind]. unfold np_zeros. rewrite bool_decide_eq_false_2 by lia.
  cbn [rbind]. rewrite (range_cons 0 T) by lia. cbn [foldM].
  exists IndexError.
  assert (Hread : getitem2 (dpaction tb) 0 (s_to_index V T upper_limit V)
                  = Raise IndexError).
  { unfold getitem2.
    destruct (lookup_lt_is_Some_2 (dpaction tb) (Z.to_nat 0)) as [row Hrow].
    { destruct Hs as [-> _]. lia. }
    rewrite (getitem_lookup _ 0 row) by (lia || exact Hrow). cbn [rbind].
    unfold getitem. rewrite (shaped_lookup _ _ _ _ row Hs Hrow).
    assert (Hidx : s_to_index V T upper_limit V
                   = s_size V T lower_limit upper_limit + (lower_limit * T - 1))
      by (unfold s_to_index, s_size, max_remaining, min_remaining; lia).
    assert (1 <= lower_limit * T) by nia.
    unfold norm_index.
    rewrite !bool_decide_eq_false_2 by lia. reflexivity. }
  unfold traverse at 1. cbn [fst snd]. rewrite Hread. reflexivity.
Qed.

End Shapes.

(** * The claims *)

(** ** Claims about [best_respond] that the code does not meet *)

(** C1. Optimality on feasible instances fails outside
    [lower_limit <= 0 <= upper_limit].  With [lower_limit = 1] the
    scenario [V = 4], [bnow = [1, 1]], [T = 2], [kappa = 1/2],
    [upper_limit = 3] is feasible ([[2, 2]] is a feasible trajectory) and
    the call raises [IndexError]; with limits [[-2, -1]], [V = -3] and
    [bnow = [-10, 0]] the call returns [[-2, -1]] although the feasible
    [[-1, -2]] is strictly cheaper.  Under
    [lower_limit <= 0 <= upper_limit] optimality is
    [best_respond_optimal]. *)
Theorem best_respond_not_optimal :
  (feasible 4 2 1 3 [2; 2] /\
   best_respond 4 [1; 1]%Q 2 (1 # 2) 1 3 = Raise IndexError) /\
  (best_respond (-3) [-10; 0]%Q 2 0 (-2) (-1) = Ret [-2; -1] /\
   feasible (-3) 2 (-2) (-1) [-1; -2] /\
   exists c c',
     total_cost (inject_Z <$> [-2; -1]) [-10; 0]%Q 0 = Ret c /\
     total_cost (inject_Z <$> [-1; -2]) [-10; 0]%Q 0 = Ret c' /\
     (c' < c)%Q).
Proof.
  split; [split|split; [|split]].
  - split; [reflexivity|]. split; [repeat constructor; lia | reflexivity].
  - vm_compute. reflexivity.
  - vm_compute. reflexivity.
  - split; [reflexivity|]. split; [repeat constructor; lia | reflexivity].
  - eexists. eexists. split; [vm_compute; reflexivity|].
    split; [vm_compute; reflexivity|]. reflexivity.
Qed.

(** C3. Budget conservation fails on a feasible instance with
    [lower_limit > 0]: for [V = 3], [T = 2] and limits [[1, 2]]
    ([2 * 1 <= 3 <= 2 * 2]) the call raises [IndexError] instead of
    returning a trajectory; by [positive_lower_limit_raises] this happens
    for every [lower_limit > 0].  Under [lower_limit <= 0 <= upper_limit]
    the property is [best_respond_feasible]. *)
Theorem best_respond_raises_on_feasible :
  2 * 1 <= 3 <= 2 * 2 /\
  best_respond 3 [0; 0]%Q 2 0 1 2 = Raise IndexError.
Proof. split; [lia | vm_compute; reflexivity]. Qed.

(** C4. Bound adherence fails on a feasible instance with
    [upper_limit < 0]: for [V = -2], [T = 1] and limits [[-3, -1]] the
    index of the start state is negative, wraps to an untouched cell, and
    the call returns [[0]], outside the limits.  Under
    [lower_limit <= 0 <= upper_limit] the property is
    [best_respond_bounds]. *)
Theorem best_respond_leaves_bounds :
  1 * -3 <= -2 <= 1 * -1 /\
  best_respond (-2) [0]%Q 1 0 (-3) (-1) = Ret [0] /\
  ~ (-3 <= 0 <= -1).
Proof. split; [lia|]. split; [vm_compute; reflexivity | lia]. Qed.

(** C5. The window of step [0] is not inside the window of step [T]
    when [lower_limit > 0]: for [V = 3], [T = 2] and limits [[1, 2]] the
    state [3] of step [0] is outside the window of step [2]; the
    successor state [3 - 1] has index [3], equal to the width of the
    table, and populating the table raises [IndexError].  Under
    [lower_limit <= 0 <= upper_limit] the property is
    [window_in_table]. *)
Theorem table_access_out_of_bounds :
  in_window 3 1 2 0 3 /\
  ~ in_window 3 1 2 2 3 /\
  s_to_index 3 2 2 (3 - 1) = s_size 3 2 1 2 /\
  populate 3 [0; 0]%Q 2 0 1 2 = Raise IndexError.
Proof.
  unfold in_window, min_remaining, max_remaining.
  split; [lia|]. split; [lia|]. split; vm_compute; reflexivity.
Qed.

(** ** Claims that hold in an amended form *)




(** C7 as stated fails: for [V = 4], [T = 2] and limits [[0, 3]] the
    state [4] lies in the window of the terminal step [1], but exceeds
    [upper_limit], so the guard of the initialisation loop skips it and
    its recorded action stays [0]. *)
Lemma terminal_action_not_forced : ~ recorded_actions_valid 4 [0; 0]%Q 2 0 0 3.
Proof.
  intros H.
  destruct (H _ eq_refl 1 4) as (q & Hq & _ & _ & _ & Hlast).
  - lia.
  - unfold in_window, min_remaining, max_remaining. lia.
  - vm_compute in Hq. injection Hq as <-.
    specialize (Hlast eq_refl). discriminate Hlast.
Qed.

(** C7, amended. With [T >= 1], [bnow] of length [T] and
    [lower_limit <= 0 <= upper_limit], after the tables are populated,
    every state [(t, s)] with [s] in the window of step [t] holds a cost
    and a recorded action [q] with [lower_limit <= q <= upper_limit] and
    [s - q] in the window of step [t + 1].  The stored cost is finite
    exactly when the horizon can be completed from the state, that is
    when [(T - t) * lower_limit <= s <= (T - t) * upper_limit].  For
    these states the cost stored for [(t + 1, s - q)] is finite when
    [t + 1 < T], and [q = s] at the terminal step [t = T - 1]; for the
    other states of the window the recorded action is [0]. *)
Theorem recorded_action_invariant
    (V : Z) (bnow : list Q) (T : Z) (kappa : Q) (lower_limit upper_limit : Z) :
  1 <= T -> Z.of_nat (length bnow) = T ->
  lower_limit <= 0 <= upper_limit ->
  exists tb,
    populate V bnow T kappa lower_limit upper_limit = Ret tb /\
    forall t s,
      0 <= t < T -> in_window V lower_limit upper_limit t s ->
      exists c q,
        getitem2 (dptable tb) t (s_to_index V T upper_limit s) = Ret c /\
        getitem2 (dpaction tb) t (s_to_index V T upper_limit s) = Ret q /\
        lower_limit <= q <= upper_limit /\
        in_window V lower_limit upper_limit (t + 1) (s - q) /\
        (is_fin c <-> (T - t) * lower_limit <= s <= (T - t) * upper_limit) /\
        (is_fin c ->
         (t + 1 < T ->
          exists c', getitem2 (dptable tb) (t + 1)
                       (s_to_index V T upper_limit (s - q)) = Ret (Fin c')) /\
         (t = T - 1 -> q = s)) /\
        (~ is_fin c -> q = 0).
Proof.
  intros HT Hlen [Hlow Hupp].
  destruct (populate_spec V bnow T kappa lower_limit upper_limit HT Hlen Hlow Hupp)
    as (tb & Hpop & Htab).
  exists tb. split; [exact Hpop|].
  intros t s Ht Hw.
  destruct (populated_read V bnow T kappa lower_limit upper_limit Hlow Hupp
              tb t s Htab Ht Hw) as [Hr1 Hr2].
  set (k := Z.to_nat (T - 1 - t)) in *.
  exists (value V bnow T kappa lower_limit upper_limit k s).1,
    (value V bnow T kappa lower_limit upper_limit k s).2.
  split; [exact Hr1|]. split; [exact Hr2|].
  assert (Hb : lower_limit <=
               (value V bnow T kappa lower_limit upper_limit k s).2
               <= upper_limit)
    by (apply value_action_bounds; lia).
  split; [exact Hb|]. split; [apply window_step; assumption|]. split; [|split].
  - rewrite (value_fin_iff V bnow T kappa lower_limit upper_limit k s) by lia.
    replace (Z.of_nat k + 1) with (T - t) by lia. reflexivity.
  - intros Hfin. split.
    + intros Hlt.
      assert (Hk : k = S (Z.to_nat (T - 1 - (t + 1)))) by lia.
      rewrite Hk in Hfin |- *.
      apply value_next_fin in Hfin.
      destruct (populated_read V bnow T kappa lower_limit upper_limit Hlow Hupp
                  tb (t + 1)
                  (s - (value V bnow T kappa lower_limit upper_limit
                          (S (Z.to_nat (T - 1 - (t + 1)))) s).2) Htab)
        as [Hn _]; [lia | |].
      { apply window_step; [exact Hw|]. rewrite <- Hk. exact Hb. }
      rewrite Hn.
      destruct (value V bnow T kappa lower_limit upper_limit
                  (Z.to_nat (T - 1 - (t + 1))) _).1 as [c'|]; [eauto | contradiction].
    + intros ->. assert (Hk : k = 0%nat) by lia. rewrite Hk in Hfin |- *.
      apply value_fin_0 in Hfin as [_ ->]. reflexivity.
  - intros Hinf. rewrite (value_unreached _ _ _ _ _ _ _ _ Hinf). reflexivity.
Qed.

Lemma recorded_action_invariant_witness :
  exists tb,
    populate 4 [1; 1]%Q 2 (1 # 2) 0 3 = Ret tb /\
    forall t s,
      0 <= t < 2 -> in_window 4 0 3 t s ->
      exists c q,
        getitem2 (dptable tb) t (s_to_index 4 2 3 s) = Ret c /\
        getitem2 (dpaction tb) t (s_to_index 4 2 3 s) = Ret q /\
        0 <= q <= 3 /\
        in_window 4 0 3 (t + 1) (s - q) /\
        (is_fin c <-> (2 - t) * 0 <= s <= (2 - t) * 3) /\
        (is_fin c ->
         (t + 1 < 2 ->
          exists c', getitem2 (dptable tb) (t + 1)
                       (s_to_index 4 2 3 (s - q)) = Ret (Fin c')) /\
         (t = 2 - 1 -> q = s)) /\
        (~ is_fin c -> q = 0).
Proof.
  apply (recorded_action_invariant 4 [1; 1]%Q 2 (1 # 2) 0 3); [lia | reflexivity | lia].
Defined.

(** C9 as stated fails: for [T = 1], [V = 5] and limits [[0, 2]] the
    call returns [[0]]. *)
Lemma single_step_not_V :
  length [0]%Q = 1%nat /\
  best_respond 5 [0]%Q 1 0 0 2 = Ret [0] /\
  best_respond 5 [0]%Q 1 0 0 2 <> Ret [5].
Proof.
  split; [reflexivity|]. split; [vm_compute; reflexivity|].
  vm_compute. discriminate.
Qed.

(** C9, amended. For [T = 1], an opponent trajectory of length [1],
    limits with [lower_limit <= 0 <= upper_limit] and a volume with
    [lower_limit <= V <= upper_limit], [best_respond] returns [[V]]. *)
Theorem single_step_returns_V
    (V : Z) (bnow : list Q) (kappa : Q) (lower_limit upper_limit : Z) :
  length bnow = 1%nat ->
  lower_limit <= 0 <= upper_limit ->
  lower_limit <= V <= upper_limit ->
  best_respond V bnow 1 kappa lower_limit upper_limit = Ret [V].
Proof.
  intros Hlen [Hlow Hupp] HV.
  rewrite best_respond_policy by (lia || assumption).
  change (Z.to_nat (1 - 1)) with 0%nat.
  rewrite policy_unfold. simpl.
  rewrite bool_decide_eq_true_2 by exact HV. reflexivity.
Qed.

Lemma single_step_returns_V_witness :
  best_respond 3 [7]%Q 1 (1 # 2) (-1) 4 = Ret [3].
Proof.
  apply (single_step_returns_V 3 [7]%Q (1 # 2) (-1) 4); [reflexivity | lia | lia].
Defined.

(** ** Claims that hold as stated *)



(** ** The concrete scenario of the specification

    [V = 4], [bnow = [1, 1]], [T = 2], [kappa = 1/2], limits [[0, 4]]:
    the optimiser returns [[2, 2]], whose cost is the minimum over the
    five feasible pairs [(q0, 4 - q0)]. *)
Example concrete_scenario :
  best_respond 4 [1; 1]%Q 2 (1 # 2) 0 4 = Ret [2; 2] /\
  forall q0, 0 <= q0 <= 4 ->
    exists c c',
      total_cost (inject_Z <$> [2; 2]) [1; 1]%Q (1 # 2) = Ret c /\
      total_cost (inject_Z <$> [q0; 4 - q0]) [1; 1]%Q (1 # 2) = Ret c' /\
      (c <= c')%Q.
Proof.
  split; [vm_compute; reflexivity|].
  intros q0 Hq0.
  assert (Hc : q0 = 0 \/ q0 = 1 \/ q0 = 2 \/ q0 = 3 \/ q0 = 4) by lia.
  destruct Hc as [->|[->|[->|[->| ->]]]];
    (eexists; eexists; split; [vm_compute; reflexivity|];
     split; [vm_compute; reflexivity|]; vm_compute; discriminate).
Qed.

(** * Further properties of the cost functional *)

Lemma foldM_ext {S X : Type} (f g : S -> X -> res S) (xs : list X) (st : S) :
  (forall x st', x ∈ xs -> f st' x = g st' x) ->
  foldM f xs st = foldM g xs st.
Proof.
  revert st. induction xs as [|x xs IH]; intros st H; [reflexivity|].
  cbn [foldM]. rewrite (H x st) by left.
  destruct (g st x) as [st'|e]; [|reflexivity]. cbn [rbind].
  apply IH. intros y st'' Hy. apply H. right. exact Hy.
Qed.

Lemma foldM_app {S X : Type} (body : S -> X -> res S) (xs ys : list X) (st : S) :
  foldM body (xs ++ ys) st = rbind (foldM body xs st) (foldM body ys).
Proof.
  revert st. induction xs as [|x xs IH]; intros st; [reflexivity|].
  cbn [foldM app]. destruct (body st x) as [st'|e]; [apply IH | reflexivity].
Qed.

Lemma getitem_app_l {A : Type} (l ext : list A) (i : Z) :
  0 <= i < Z.of_nat (length l) -> getitem (l ++ ext) i = getitem l i.
Proof.
  intros Hi. unfold getitem. rewrite length_app.
  rewrite !norm_index_nonneg by lia. cbn [rbind].
  rewrite lookup_app_l by lia. reflexivity.
Qed.

Lemma getitem_beyond {A : Type} (l : list A) (i : Z) :
  Z.of_nat (length l) <= i -> getitem l i = Raise IndexError.
Proof.
  intros Hi. unfold getitem, norm_index.
  rewrite !bool_decide_eq_false_2 by lia. reflexivity.
Qed.

Lemma getitem_defined {A : Type} (l : list A) (i : Z) :
  0 <= i < Z.of_nat (length l) -> exists x, getitem l i = Ret x.
Proof.
  intros Hi. destruct (lookup_lt_is_Some_2 l (Z.to_nat i)) as [x Hx]; [lia|].
  exists x. apply getitem_lookup; [lia | exact Hx].
Qed.

Lemma slice_to_app_l {A : Type} (l ext : list A) (k : Z) :
  0 <= k <= Z.of_nat (length l) -> slice_to (l ++ ext) k = slice_to l k.
Proof.
  intros Hk. unfold slice_to. rewrite !bool_decide_eq_false_2 by lia.
  apply take_app_le. lia.
Qed.

Lemma getitem_cumulative_before (x : list Q) (t : Z) :
  0 <= t < Z.of_nat (length x) ->
  getitem (cumulative_before x) t = Ret (np_sum (slice_to x t)).
Proof.
  intros Ht. unfold cumulative_before.
  apply (getitem_fmap_range (fun i => np_sum (slice_to x i))). exact Ht.
Qed.

(** One step of the accumulation reads only [bnow[t]] and [bnow[:t]]. *)
Lemma charge_app_r (anow bnow ext : list Q) (kappa acc : Q) (t : Z) :
  0 <= t < Z.of_nat (length bnow) ->
  charge anow (bnow ++ ext) kappa (cumulative_before anow)
    (cumulative_before (bnow ++ ext)) acc t
  = charge anow bnow kappa (cumulative_before anow) (cumulative_before bnow) acc t.
Proof.
  intros Ht. unfold charge.
  rewrite getitem_app_l by lia.
  rewrite (getitem_cumulative_before (bnow ++ ext))
    by (rewrite length_app; lia).
  rewrite (getitem_cumulative_before bnow) by lia.
  rewrite slice_to_app_l by lia. reflexivity.
Qed.

Lemma total_cost_app_r (anow bnow ext : list Q) (kappa : Q) :
  (length anow <= length bnow)%nat ->
  total_cost anow (bnow ++ ext) kappa = total_cost anow bnow kappa.
Proof.
  intros Hlen. unfold total_cost. apply foldM_ext.
  intros t acc Ht. apply elem_of_range in Ht. apply charge_app_r. lia.
Qed.

Lemma cost_formula_app_r (kappa A B : Q) (a b ext : list Q) :
  (length a <= length b)%nat ->
  cost_formula kappa A B a (b ++ ext) = cost_formula kappa A B a b.
Proof.
  revert A B b. induction a as [|x a IH]; intros A B [|y b] Hlen;
    simpl in *; try reflexivity; try lia.
  rewrite IH by lia. reflexivity.
Qed.

(** [total_cost] on an opponent trajectory at least as long as the
    player's: the formula over the player's steps. *)
Lemma total_cost_is_formula_le (a b : list Q) (kappa : Q) :
  (length a <= length b)%nat ->
  exists c, total_cost a b kappa = Ret c /\ (c == cost_formula kappa 0 0 a b)%Q.
Proof.
  intros Hlen.
  rewrite <- (take_drop (length a) b).
  rewrite total_cost_app_r by (rewrite length_take; lia).
  rewrite cost_formula_app_r by (rewrite length_take; lia).
  apply total_cost_is_formula. rewrite length_take. lia.
Qed.

(** X1. Entries of the opponent's trajectory beyond the length of the
    player's are never read: the cost is that against the prefix of the
    same length, and no error is raised. *)
Theorem total_cost_ignores_longer_opponent (anow bnow : list Q) (kappa : Q) :
  (length anow <= length bnow)%nat ->
  total_cost anow bnow kappa
  = total_cost anow (take (length anow) bnow) kappa /\
  exists c, total_cost anow bnow kappa = Ret c.
Proof.
  intros Hlen. split.
  - rewrite <- (take_drop (length anow) bnow) at 1.
    apply total_cost_app_r. rewrite length_take. lia.
  - destruct (total_cost_is_formula_le anow bnow kappa Hlen) as (c & Hc & _).
    exists c. exact Hc.
Qed.

Lemma total_cost_ignores_longer_opponent_witness :
  total_cost [1; 2]%Q [3; 4; 5; 6]%Q (1 # 2)
  = total_cost [1; 2]%Q (take (length [1; 2]%Q) [3; 4; 5; 6]%Q) (1 # 2) /\
  exists c, total_cost [1; 2]%Q [3; 4; 5; 6]%Q (1 # 2) = Ret c.
Proof.
  apply (total_cost_ignores_longer_opponent [1; 2]%Q [3; 4; 5; 6]%Q (1 # 2)).
  simpl. lia.
Defined.

Lemma charge_defined (anow bnow : list Q) (kappa acc : Q) (t : Z) :
  0 <= t < Z.of_nat (length anow) -> t < Z.of_nat (length bnow) ->
  exists v, charge anow bnow kappa (cumulative_before anow)
              (cumulative_before bnow) acc t = Ret v.
Proof.
  intros Ha Hb. unfold charge.
  destruct (getitem_defined anow t Ha) as [x ->]. cbn [rbind].
  destruct (getitem_defined bnow t) as [y ->]; [lia|]. cbn [rbind].
  rewrite !getitem_cumulative_before by lia. cbn [rbind]. eauto.
Qed.

Lemma total_cost_beyond_opponent (anow bnow : list Q) (kappa : Q) :
  (length bnow < length anow)%nat ->
  total_cost anow bnow kappa = Raise IndexError.
Proof.
  intros Hlen. unfold total_cost.
  rewrite (range_app 0 (Z.of_nat (length bnow))) by lia.
  rewrite foldM_app.
  destruct (foldM_invariant
              (charge anow bnow kappa (cumulative_before anow)
                 (cumulative_before bnow))
              (fun _ _ => True) (range 0 (Z.of_nat (length bnow))) 0%Q I)
    as (c & -> & _).
  { intros done t rest acc Hsplit _.
    apply range_split in Hsplit as (Ht & _ & _).
    destruct (charge_defined anow bnow kappa acc t) as [v Hv]; [lia..|].
    exists v. split; [exact Hv | exact I]. }
  cbn [rbind]. rewrite range_cons by lia. cbn [foldM].
  unfold charge at 1.
  destruct (getitem_defined anow (Z.of_nat (length bnow))) as [x ->]; [lia|].
  cbn [rbind]. rewrite getitem_beyond by lia. reflexivity.
Qed.

(** X2. An opponent trajectory shorter than the player's makes
    [total_cost] raise [IndexError] (at step [len(bnow)]). *)
Theorem total_cost_short_opponent_raises (anow bnow : list Q) (kappa : Q) :
  (length bnow < length anow)%nat ->
  total_cost anow bnow kappa = Raise IndexError.
Proof.
  intros Hlen. apply total_cost_beyond_opponent. exact Hlen.
Qed.

Lemma total_cost_short_opponent_raises_witness :
  total_cost [1; 2; 3]%Q [4; 5]%Q (1 # 2) = Raise IndexError.
Proof.
  apply (total_cost_short_opponent_raises [1; 2; 3]%Q [4; 5]%Q (1 # 2)).
  simpl. lia.
Defined.

Lemma cost_formula_zero (kappa A B : Q) (n : nat) (b : list Q) :
  (cost_formula kappa A B (replicate n 0%Q) b == 0)%Q.
Proof.
  revert A B b. induction n as [|n IH]; intros A B b; [reflexivity|].
  destruct b as [|y b]; [reflexivity|].
  change (replicate (S n) 0%Q) with (0%Q :: replicate n 0%Q).
  cbn [cost_formula]. rewrite IH. ring.
Qed.

(** X3. A player who trades nothing pays nothing, whatever the opponent
    does and whatever [kappa] is. *)
Theorem total_cost_of_no_trade (n : nat) (bnow : list Q) (kappa : Q) :
  (n <= length bnow)%nat ->
  exists c, total_cost (replicate n 0%Q) bnow kappa = Ret c /\ (c == 0)%Q.
Proof.
  intros Hlen.
  destruct (total_cost_is_formula_le (replicate n 0%Q) bnow kappa) as (c & Hc & Hq).
  { rewrite length_replicate. exact Hlen. }
  exists c. split; [exact Hc|]. rewrite Hq. apply cost_formula_zero.
Qed.

Lemma total_cost_of_no_trade_witness :
  exists c, total_cost (replicate 3 0%Q) [5; -2; 7]%Q (3 # 4) = Ret c /\ (c == 0)%Q.
Proof.
  apply (total_cost_of_no_trade 3 [5; -2; 7]%Q (3 # 4)). simpl. lia.
Defined.

(** * Failures of [best_respond] *)

Lemma only_index_Ret {A : Type} (a : A) : only_index (Ret a).
Proof. intros e H. discriminate H. Qed.

Lemma only_index_Raise {A : Type} : only_index (@Raise A IndexError).
Proof. intros e [= <-]. reflexivity. Qed.

Lemma only_index_bind {A B : Type} (m : res A) (k : A -> res B) :
  only_index m -> (forall a, only_index (k a)) -> only_index (rbind m k).
Proof.
  intros Hm Hk e. destruct m as [a|e']; cbn [rbind].
  - apply Hk.
  - intros [= <-]. apply Hm. reflexivity.
Qed.

Lemma only_index_foldM {S X : Type} (body : S -> X -> res S) (xs : list X) (st : S) :
  (forall st' x, only_index (body st' x)) -> only_index (foldM body xs st).
Proof.
  intros Hb. revert st. induction xs as [|x xs IH]; intros st; cbn [foldM].
  - apply only_index_Ret.
  - apply only_index_bind; [apply Hb | exact IH].
Qed.

Lemma only_index_norm_index (n : nat) (i : Z) : only_index (norm_index n i).
Proof.
  unfold norm_index. repeat case_bool_decide;
    [apply only_index_Ret | apply only_index_Ret | apply only_index_Raise].
Qed.

Lemma only_index_getitem {A : Type} (l : list A) (i : Z) : only_index (getitem l i).
Proof.
  unfold getitem. apply only_index_bind; [apply only_index_norm_index|].
  intros k. destruct (l !! k); [apply only_index_Ret | apply only_index_Raise].
Qed.

Lemma only_index_setitem {A : Type} (l : list A) (i : Z) (x : A) :
  only_index (setitem l i x).
Proof.
  unfold setitem. apply only_index_bind; [apply only_index_norm_index|].
  intros k. apply only_index_Ret.
Qed.

Lemma only_index_getitem2 {A : Type} (m : list (list A)) (r c : Z) :
  only_index (getitem2 m r c).
Proof.
  unfold getitem2. apply only_index_bind; [apply only_index_getitem|].
  intros row. apply only_index_getitem.
Qed.

Lemma only_index_setitem2 {A : Type} (m : list (list A)) (r c : Z) (x : A) :
  only_index (setitem2 m r c x).
Proof.
  unfold setitem2. apply only_index_bind; [apply only_index_getitem|].
  intros row. apply only_index_bind; [apply only_index_setitem|].
  intros row'. apply only_index_setitem.
Qed.

Create HintDb only_index.

#[local] Hint Resolve only_index_Ret only_index_Raise only_index_getitem
  only_index_setitem only_index_getitem2 only_index_setitem2 : only_index.

Ltac only_index_steps :=
  repeat first
    [ apply only_index_bind; [solve [auto with only_index] | intros ?]
    | solve [auto with only_index] ].

Section FailureKinds.

Variables (V : Z) (bnow : list Q) (T : Z) (kappa : Q).
Variables (lower_limit upper_limit : Z).

Lemma only_index_last_step (tb : tables) (s : Z) :
  only_index (last_step V bnow T kappa lower_limit upper_limit tb s).
Proof. unfold last_step. case_bool_decide; only_index_steps. Qed.

Lemma only_index_thisval (dpt : list (list cost)) (t s q : Z) :
  only_index (thisval V bnow T kappa upper_limit dpt t s q).
Proof. unfold thisval. case_bool_decide; only_index_steps. Qed.

Lemma only_index_try_q (t s q : Z) (st : tables * cost) :
  only_index (try_q V bnow T kappa upper_limit t s st q).
Proof.
  unfold try_q. apply only_index_bind; [apply only_index_thisval|].
  intros v. destruct (cost_ltb v st.2); only_index_steps.
Qed.

Lemma only_index_state_step (t : Z) (tb : tables) (s : Z) :
  only_index (state_step V bnow T kappa lower_limit upper_limit t tb s).
Proof.
  unfold state_step. apply only_index_bind.
  - apply only_index_foldM. intros st q. apply only_index_try_q.
  - intros st. apply only_index_Ret.
Qed.

Lemma only_index_time_step (tb : tables) (t : Z) :
  only_index (time_step V bnow T kappa lower_limit upper_limit tb t).
Proof.
  unfold time_step. apply only_index_foldM. intros tb' s.
  apply only_index_state_step.
Qed.

Lemma only_index_traverse (tb : tables) (st : list Z * Z) (t : Z) :
  only_index (traverse V T upper_limit tb st t).
Proof. unfold traverse. only_index_steps. Qed.

Lemma np_full_negative {A : Type} (rows cols : Z) (v : A) :
  rows < 0 \/ cols < 0 -> np_full rows cols v = Raise ValueError.
Proof. intros H. unfold np_full. rewrite bool_decide_eq_true_2 by exact H. reflexivity. Qed.

Lemma np_full_defined {A : Type} (rows cols : Z) (v : A) :
  0 <= rows -> 0 <= cols -> exists m, np_full rows cols v = Ret m.
Proof.
  intros Hr Hc. unfold np_full. rewrite bool_decide_eq_false_2 by lia. eauto.
Qed.

Lemma best_respond_negative_dimension :
  T < 0 \/ s_size V T lower_limit upper_limit < 0 ->
  best_respond V bnow T kappa lower_limit upper_limit = Raise ValueError.
Proof.
  intros Hneg. unfold best_respond, populate.
  rewrite np_full_negative by exact Hneg. reflexivity.
Qed.

Lemma best_respond_only_index :
  0 <= T -> 0 <= s_size V T lower_limit upper_limit ->
  only_index (best_respond V bnow T kappa lower_limit upper_limit).
Proof.
  intros HT Hsize. unfold best_respond, populate.
  destruct (np_full_defined T (s_size V T lower_limit upper_limit) Inf HT Hsize)
    as [dpt0 ->].
  destruct (np_full_defined T (s_size V T lower_limit upper_limit) 0 HT Hsize)
    as [dpa0 ->].
  cbn [rbind]. apply only_index_bind.
  - apply only_index_bind.
    + apply only_index_foldM. intros tb s. apply only_index_last_step.
    + intros tb1. apply only_index_foldM. intros tb t. apply only_index_time_step.
  - intros tb. unfold np_zeros. rewrite bool_decide_eq_false_2 by lia.
    cbn [rbind]. apply only_index_bind.
    + apply only_index_foldM. intros st t. apply only_index_traverse.
    + intros st. apply only_index_Ret.
Qed.

End FailureKinds.

Section MoreFailures.

Variables (V : Z) (bnow : list Q) (T : Z) (kappa : Q).
Variables (lower_limit upper_limit : Z).

(** If the index of the start state is not a column of the table, the
    first read of the reconstruction raises unless an earlier access
    already did. *)
Lemma unreadable_start_raises :
  1 <= T ->
  norm_index (Z.to_nat (s_size V T lower_limit upper_limit))
    (s_to_index V T upper_limit V) = Raise IndexError ->
  exists e, best_respond V bnow T kappa lower_limit upper_limit = Raise e.
Proof.
  intros HT Hidx. unfold best_respond.
  destruct (populate V bnow T kappa lower_limit upper_limit) as [tb|e] eqn:Hpop;
    [|exists e; reflexivity].
  apply populate_shaped in Hpop as (Hsize & _ & Hs).
  cbn [rbind]. unfold np_zeros. rewrite bool_decide_eq_false_2 by lia.
  cbn [rbind]. rewrite (range_cons 0 T) by lia. cbn [foldM].
  exists IndexError.
  unfold traverse at 1. cbn [fst snd]. unfold getitem2.
  destruct (lookup_lt_is_Some_2 (dpaction tb) (Z.to_nat 0)) as [row Hrow].
  { destruct Hs as [-> _]. lia. }
  rewrite (getitem_lookup _ 0 row) by (lia || exact Hrow). cbn [rbind].
  unfold getitem. rewrite (shaped_lookup _ _ _ _ row Hs Hrow), Hidx. reflexivity.
Qed.

(** X5. Limits given in the wrong order ([upper_limit < lower_limit]) are
    not checked, but the call cannot return: the table gets a negative
    width ([ValueError]) or no column at all ([IndexError]). *)
Theorem inverted_limits_raise :
  1 <= T -> upper_limit < lower_limit ->
  exists e, best_respond V bnow T kappa lower_limit upper_limit = Raise e.
Proof.
  intros HT Hinv.
  destruct (decide (s_size V T lower_limit upper_limit < 0)) as [Hneg|Hnn].
  - exists ValueError. apply best_respond_negative_dimension. right. exact Hneg.
  - apply unreadable_start_raises; [exact HT|].
    assert (Hsize : s_size V T lower_limit upper_limit = 0).
    { unfold s_size, max_remaining, min_remaining in *. nia. }
    rewrite Hsize. unfold norm_index.
    rewrite !bool_decide_eq_false_2 by (simpl; lia). reflexivity.
Qed.

(** The candidate cost cannot be computed for a step the opponent's
    trajectory does not cover. *)
Lemma thisval_uncovered_step (dpt : list (list cost)) (t s q : Z) :
  Z.of_nat (length bnow) <= t ->
  exists e, thisval V bnow T kappa upper_limit dpt t s q = Raise e.
Proof.
  intros Ht. unfold thisval.
  case_bool_decide;
    (destruct (getitem2 dpt (t + 1) _) as [nxt|e]; cbn [rbind];
     [rewrite getitem_beyond by lia; eauto | eauto]).
Qed.

(** X6. With [T >= 2] and [lower_limit <= upper_limit], an opponent
    trajectory with fewer than [T - 1] entries makes [best_respond] raise
    [IndexError]: at the latest, the first candidate of step [T - 2]
    reads [bnow[T - 2]]. *)
Theorem short_opponent_raises :
  2 <= T -> lower_limit <= upper_limit ->
  Z.of_nat (length bnow) <= T - 2 ->
  best_respond V bnow T kappa lower_limit upper_limit = Raise IndexError.
Proof.
  intros HT Hlu Hshort.
  assert (Hsize : 0 <= s_size V T lower_limit upper_limit).
  { unfold s_size, max_remaining, min_remaining. nia. }
  cut (exists e, best_respond V bnow T kappa lower_limit upper_limit = Raise e).
  { intros [e He]. rewrite He. f_equal.
    apply (best_respond_only_index V bnow T kappa lower_limit upper_limit);
      [lia | exact Hsize | exact He]. }
  unfold best_respond.
  cut (exists e, populate V bnow T kappa lower_limit upper_limit = Raise e).
  { intros [e ->]. eauto. }
  unfold populate.
  destruct (np_full_defined T (s_size V T lower_limit upper_limit) Inf)
    as [dpt0 ->]; [lia | exact Hsize |].
  destruct (np_full_defined T (s_size V T lower_limit upper_limit) 0)
    as [dpa0 ->]; [lia | exact Hsize |].
  cbn [rbind].
  destruct (foldM _ (range (min_remaining V upper_limit T) _) _) as [tb1|e];
    [|eauto].
  cbn [rbind].
  rewrite (range_app 0 (T - 2) (T - 1)) by lia.
  rewrite (range_cons (T - 2)) by lia. rewrite (range_nil (T - 2 + 1)) by lia.
  rewrite rev_app_distr. cbn [rev app foldM].
  cut (exists e, time_step V bnow T kappa lower_limit upper_limit tb1 (T - 2)
                 = Raise e).
  { intros [e ->]. eauto. }
  unfold time_step.
  rewrite range_cons
    by (unfold min_remaining, max_remaining; nia).
  cbn [foldM]. unfold state_step at 1.
  rewrite (range_cons lower_limit) by lia. cbn [foldM].
  unfold try_q at 1. cbn [fst snd].
  destruct (thisval_uncovered_step (dptable tb1) (T - 2)
              (min_remaining V upper_limit (T - 2)) lower_limit) as [e ->];
    [lia|].
  eauto.
Qed.

End MoreFailures.

Lemma inverted_limits_raise_witness :
  exists e, best_respond 2 [0; 0; 0]%Q 3 0 4 1 = Raise e.
Proof. apply (inverted_limits_raise 2 [0; 0; 0]%Q 3 0 4 1); lia. Defined.

Lemma short_opponent_raises_witness :
  best_respond 3 [1]%Q 3 (1 # 2) 0 2 = Raise IndexError.
Proof. apply (short_opponent_raises 3 [1]%Q 3 (1 # 2) 0 2); simpl; lia. Defined.

(** * Further properties of [best_respond] *)

Section LongerOpponent.

Variables (V : Z) (bnow ext : list Q) (T : Z) (kappa : Q).
Variables (lower_limit upper_limit : Z).
Hypothesis HT : 1 <= T.
Hypothesis Hlen : T <= Z.of_nat (length bnow).

Lemma cumulative_through_app_r :
  cumulative_through (bnow ++ ext) T = cumulative_through bnow T.
Proof using Hlen.
  clear HT.
  unfold cumulative_through. apply list_fmap_ext.
  intros k i Hi. unfold range in Hi. apply lookup_seqZ in Hi as [-> Hk].
  rewrite slice_to_app_l by lia. reflexivity.
Qed.

Lemma last_step_app_r (tb : tables) (s : Z) :
  last_step V (bnow ++ ext) T kappa lower_limit upper_limit tb s
  = last_step V bnow T kappa lower_limit upper_limit tb s.
Proof using HT Hlen.
  unfold last_step.
  rewrite cumulative_through_app_r, getitem_app_l by lia. reflexivity.
Qed.

Lemma thisval_app_r (dpt : list (list cost)) (t s q : Z) :
  0 <= t < T ->
  thisval V (bnow ++ ext) T kappa upper_limit dpt t s q
  = thisval V bnow T kappa upper_limit dpt t s q.
Proof using Hlen.
  clear HT.
  intros Ht. unfold thisval.
  rewrite cumulative_through_app_r, getitem_app_l by lia. reflexivity.
Qed.

Lemma time_step_app_r (tb : tables) (t : Z) :
  0 <= t < T ->
  time_step V (bnow ++ ext) T kappa lower_limit upper_limit tb t
  = time_step V bnow T kappa lower_limit upper_limit tb t.
Proof using Hlen.
  clear HT.
  intros Ht. unfold time_step. apply foldM_ext. intros s tb' _.
  unfold state_step. f_equal. apply foldM_ext. intros q st _.
  unfold try_q. rewrite thisval_app_r by exact Ht. reflexivity.
Qed.

(** X7. Entries of the opponent's trajectory beyond the horizon are never
    read: with [1 <= T <= len(bnow)] the result, trajectory or
    exception, is that for the first [T] entries. *)
Theorem best_respond_ignores_longer_opponent :
  best_respond V (bnow ++ ext) T kappa lower_limit upper_limit
  = best_respond V bnow T kappa lower_limit upper_limit.
Proof using HT Hlen.
  unfold best_respond, populate.
  destruct (np_full T _ Inf) as [dpt0|e]; [|reflexivity]. cbn [rbind].
  destruct (np_full T _ 0) as [dpa0|e]; [|reflexivity]. cbn [rbind].
  rewrite (foldM_ext (last_step V (bnow ++ ext) T kappa lower_limit upper_limit)
             (last_step V bnow T kappa lower_limit upper_limit))
    by (intros s tb _; apply last_step_app_r).
  destruct (foldM _ (range (min_remaining V upper_limit T) _) _) as [tb1|e];
    [|reflexivity].
  cbn [rbind].
  rewrite (foldM_ext (time_step V (bnow ++ ext) T kappa lower_limit upper_limit)
             (time_step V bnow T kappa lower_limit upper_limit)).
  - reflexivity.
  - intros t tb Ht. apply elem_of_rev_range in Ht.
    apply time_step_app_r. lia.
Qed.

End LongerOpponent.

Lemma best_respond_ignores_longer_opponent_witness :
  best_respond 4 ([1; 1]%Q ++ [9; -3]%Q) 2 (1 # 2) 0 4
  = best_respond 4 [1; 1]%Q 2 (1 # 2) 0 4.
Proof.
  apply (best_respond_ignores_longer_opponent 4 [1; 1]%Q [9; -3]%Q 2 (1 # 2) 0 4);
    simpl; lia.
Defined.

(** X8. For [T >= 1] and [lower_limit > 0], [best_respond] returns no
    trajectory, whatever the volume and the opponent. *)
Theorem positive_lower_limit_never_returns
    (V : Z) (bnow : list Q) (T : Z) (kappa : Q) (lower_limit upper_limit : Z)
    (anow : list Z) :
  1 <= T -> 0 < lower_limit ->
  best_respond V bnow T kappa lower_limit upper_limit <> Ret anow.
Proof.
  intros HT Hlow Hret.
  destruct (positive_lower_limit_raises V bnow T kappa lower_limit upper_limit
              HT Hlow) as [e He].
  rewrite He in Hret. discriminate Hret.
Qed.

Lemma positive_lower_limit_never_returns_witness :
  best_respond 10 [1; 2; 3]%Q 3 (1 # 2) 2 5 <> Ret [3; 3; 4].
Proof.
  apply (positive_lower_limit_never_returns 10 [1; 2; 3]%Q 3 (1 # 2) 2 5); lia.
Defined.

(** X10. For [T = 1] the cost stored for the start state is
    [V * ((V + bnow[0]) + kappa * ((V - V) + bnow[0]))]: the index
    [T - 2 = -1] of [b[T-2]] wraps to the last entry of [b], the
    opponent's own trade of the step, where the quantity traded before
    the step is [0]. *)
Theorem single_step_stored_cost
    (V : Z) (b0 kappa : Q) (lower_limit upper_limit : Z) :
  lower_limit <= 0 <= upper_limit ->
  lower_limit <= V <= upper_limit ->
  exists tb c,
    populate V [b0] 1 kappa lower_limit upper_limit = Ret tb /\
    getitem2 (dptable tb) 0 (s_to_index V 1 upper_limit V) = Ret (Fin c) /\
    (c == inject_Z V * ((inject_Z V + b0)
                        + kappa * (inject_Z (V - V) + b0)))%Q.
Proof.
  intros [Hlow Hupp] HV.
  destruct (populate_spec V [b0] 1 kappa lower_limit upper_limit)
    as (tb & Hpop & Htab); [lia | reflexivity | lia | lia |].
  destruct (populated_read V [b0] 1 kappa lower_limit upper_limit Hlow Hupp
              tb 0 V Htab) as [Hr _]; [lia | |].
  { unfold in_window, min_remaining, max_remaining. lia. }
  change (Z.to_nat (1 - 1 - 0)) with 0%nat in Hr.
  simpl in Hr. rewrite bool_decide_eq_true_2 in Hr by exact HV. simpl in Hr.
  eexists tb, _. split; [exact Hpop|]. split; [exact Hr|].
  unfold last_cost, opponent_before, bnow_at. simpl.
  unfold np_sum. simpl. ring.
Qed.

Lemma single_step_stored_cost_witness :
  exists tb c,
    populate 3 [2%Q] 1 (1 # 2) 0 4 = Ret tb /\
    getitem2 (dptable tb) 0 (s_to_index 3 1 4 3) = Ret (Fin c) /\
    (c == inject_Z 3 * ((inject_Z 3 + 2) + (1 # 2) * (inject_Z (3 - 3) + 2)))%Q.
Proof. apply (single_step_stored_cost 3 2 (1 # 2) 0 4); lia. Defined.

(** X11. With [T >= 1], [bnow] of length [T],
    [lower_limit <= 0 <= upper_limit] and
    [T * lower_limit <= V <= T * upper_limit], [best_respond] returns a
    trajectory of [T] trades within the limits that sums to [V]. *)
Theorem best_respond_returns_feasible
    (V : Z) (bnow : list Q) (T : Z) (kappa : Q) (lower_limit upper_limit : Z) :
  1 <= T -> Z.of_nat (length bnow) = T ->
  lower_limit <= 0 <= upper_limit ->
  T * lower_limit <= V <= T * upper_limit ->
  exists anow,
    best_respond V bnow T kappa lower_limit upper_limit = Ret anow /\
    Z.of_nat (length anow) = T /\
    Forall (fun q => lower_limit <= q <= upper_limit) anow /\
    sumZ anow = V.
Proof.
  intros HT Hlen [Hlow Hupp] Hfeas.
  destruct (best_respond_feasible V bnow T kappa lower_limit upper_limit
              HT Hlen Hlow Hupp Hfeas) as (anow & Hbr & Hl & Hb & Hs).
  exists anow. split; [exact Hbr|]. split; [exact Hl|]. split; assumption.
Qed.

Lemma best_respond_returns_feasible_witness :
  exists anow,
    best_respond 5 [3; 0; 1]%Q 3 (1 # 2) (-1) 4 = Ret anow /\
    Z.of_nat (length anow) = 3 /\
    Forall (fun q => -1 <= q <= 4) anow /\
    sumZ anow = 5.
Proof.
  apply (best_respond_returns_feasible 5 [3; 0; 1]%Q 3 (1 # 2) (-1) 4);
    [lia | reflexivity | lia | lia].
Defined.

(** * [regret] *)



(** [total_cost] returns exactly when the opponent's trajectory is at
    least as long as the player's. *)
Lemma total_cost_defined (anow bnow : list Q) (kappa : Q) :
  (length anow <= length bnow)%nat -> exists c, total_cost anow bnow kappa = Ret c.
Proof.
  intros Hlen. destruct (total_cost_is_formula_le anow bnow kappa Hlen) as (c & Hc & _).
  exists c. exact Hc.
Qed.

Lemma only_index_total_cost (anow bnow : list Q) (kappa : Q) :
  only_index (total_cost anow bnow kappa).
Proof.
  destruct (decide (length anow <= length bnow)%nat) as [Hle|Hgt].
  - destruct (total_cost_defined anow bnow kappa Hle) as (c & ->).
    apply only_index_Ret.
  - rewrite total_cost_beyond_opponent by lia. apply only_index_Raise.
Qed.




(** * [swap_regret] *)










Lemma only_index_round_cost (p1 p2 : list (list Q)) (kappa : Q)
    (p1_costs : list Q) (t : Z) :
  only_index (round_cost p1 p2 kappa p1_costs t).
Proof.
  unfold round_cost.
  apply only_index_bind; [apply only_index_getitem|]. intros a1.
  apply only_index_bind; [apply only_index_getitem|]. intros a2.
  apply only_index_bind; [apply only_index_total_cost|]. intros c.
  apply only_index_Ret.
Qed.

(** X15. With fewer rounds of player 2 than of player 1, [swap_regret]
    raises [IndexError]: the loop of lines 59-60 reads [p2_actions[t]]
    for every round of player 1. *)
Theorem swap_regret_short_history_raises
    (p1_actions p2_actions : list (list Q))
    (Va T : Z) (kappa : Q) (lower_limit upper_limit : Z) :
  (length p2_actions < length p1_actions)%nat ->
  swap_regret p1_actions p2_actions Va T kappa lower_limit upper_limit
  = Throw (CoreError IndexError).
Proof.
  intros Hlen. unfold swap_regret.
  assert (Hraise : foldM (round_cost p1_actions p2_actions kappa)
                     (range 0 (Z.of_nat (length p1_actions))) []
                   = Raise IndexError).
  { rewrite (range_app 0 (Z.of_nat (length p2_actions))) by lia.
    rewrite foldM_app.
    destruct (foldM (round_cost p1_actions p2_actions kappa)
                (range 0 (Z.of_nat (length p2_actions))) []) as [costs|e] eqn:E.
    - cbn [rbind]. rewrite range_cons by lia. cbn [foldM].
      unfold round_cost at 1.
      destruct (getitem_defined p1_actions (Z.of_nat (length p2_actions)))
        as [a ->]; [lia|].
      cbn [rbind]. rewrite getitem_beyond by lia. reflexivity.
    - cbn [rbind]. f_equal.
      apply (only_index_foldM (round_cost p1_actions p2_actions kappa)
               (range 0 (Z.of_nat (length p2_actions))) []);
        [|exact E].
      intros st t. apply only_index_round_cost. }
  rewrite Hraise. reflexivity.
Qed.

Lemma swap_regret_short_history_raises_witness :
  swap_regret [[1; 1]; [2; 0]; [1; 1]]%Q [[1; 1]; [0; 2]]%Q 2 2 (1 # 2) 0 2
  = Throw (CoreError IndexError).
Proof.
  apply (swap_regret_short_history_raises [[1; 1]; [2; 0]; [1; 1]]%Q
           [[1; 1]; [0; 2]]%Q 2 2 (1 # 2) 0 2).
  simpl. lia.
Defined.

(** * [welfare] *)

Lemma Qplus_comm_eq (x y : Q) : (x + y)%Q = (y + x)%Q.
Proof.
  destruct x as [a b], y as [c d]. unfold Qplus. cbn [Qnum Qden].
  f_equal; [ring|apply Pos.mul_comm].
Qed.

Lemma welfare_step_exchange (kappa acc : Q) (a b : list Q) (prob : Q) :
  welfare_step kappa acc ((b, a), prob) = welfare_step kappa acc ((a, b), prob).
Proof.
  cbn [welfare_step].
  destruct (decide (length a = length b)) as [Hab|Hab].
  - destruct (total_cost_is_formula a b kappa Hab) as (c1 & -> & _).
    destruct (total_cost_is_formula b a kappa (eq_sym Hab)) as (c2 & -> & _).
    cbn [rbind]. rewrite (Qplus_comm_eq c2 c1). reflexivity.
  - destruct (decide (length b < length a)%nat) as [Hlt|Hge].
    + rewrite (total_cost_beyond_opponent a b kappa Hlt).
      destruct (total_cost_is_formula_le b a kappa) as (c2 & -> & _); [lia|].
      reflexivity.
    + rewrite (total_cost_beyond_opponent b a kappa) by lia.
      destruct (total_cost_is_formula_le a b kappa) as (c1 & -> & _); [lia|].
      reflexivity.
Qed.

(** X16. [welfare] does not depend on which player is called the
    first: exchanging the two trajectories of every key of [joint_dist]
    gives the same result, value or exception. *)
Theorem welfare_symmetric
    (joint_dist : list ((list Q * list Q) * Q)) (kappa : Q) :
  welfare (exchange joint_dist) kappa = welfare joint_dist kappa.
Proof.
  unfold welfare. generalize 0%Q.
  induction joint_dist as [|[[a b] prob] joint_dist IH]; intros acc; [reflexivity|].
  change (exchange (((a, b), prob) :: joint_dist))
    with (((b, a), prob) :: exchange joint_dist).
  cbn [foldM]. rewrite welfare_step_exchange.
  destruct (welfare_step kappa acc ((a, b), prob)) as [acc'|e]; [|reflexivity].
  cbn [rbind]. apply IH.
Qed.

(** X17. A pair of trajectories of different lengths makes [welfare]
    raise [IndexError], whatever its probability: one of the two calls
    of [total_cost] reads past the end of the shorter one. *)
Theorem welfare_unequal_lengths_raise
    (joint_dist : list ((list Q * list Q) * Q)) (kappa : Q) :
  (exists a b prob, ((a, b), prob) ∈ joint_dist /\ length a <> length b) ->
  welfare joint_dist kappa = Raise IndexError.
Proof.
  intros Hex. unfold welfare. generalize 0%Q.
  induction joint_dist as [|[[a b] prob] joint_dist IH]; intros acc.
  - destruct Hex as (a & b & prob & Hin & _). inversion Hin.
  - cbn [foldM welfare_step].
    destruct (decide (length a = length b)) as [Hab|Hab].
    + destruct (total_cost_is_formula a b kappa Hab) as (c1 & -> & _).
      destruct (total_cost_is_formula b a kappa (eq_sym Hab)) as (c2 & -> & _).
      cbn [rbind]. apply IH.
      destruct Hex as (a' & b' & prob' & Hin & Hne).
      apply elem_of_cons in Hin as [Heq|Hin].
      * injection Heq as -> -> ->. contradiction.
      * exists a', b', prob'. split; assumption.
    + destruct (decide (length b < length a)%nat) as [Hlt|Hge].
      * rewrite (total_cost_beyond_opponent a b kappa Hlt). reflexivity.
      * destruct (total_cost_is_formula_le a b kappa) as (c1 & -> & _); [lia|].
        cbn [rbind].
        rewrite (total_cost_beyond_opponent b a kappa) by lia. reflexivity.
Qed.

Lemma welfare_unequal_lengths_raise_witness :
  welfare [(([1; 2], [3; 0]), 1 # 4); (([0; 1], [2; 2; 5]), 0)]%Q (1 # 2)
  = Raise IndexError.
Proof.
  apply (welfare_unequal_lengths_raise
           [(([1; 2], [3; 0]), 1 # 4); (([0; 1], [2; 2; 5]), 0)]%Q (1 # 2)).
  exists [0; 1]%Q, [2; 2; 5]%Q, 0%Q. split; [|simpl; lia].
  right. left.
Defined.

(** * [marginal_cost] *)

Lemma count_action_keys (frequencies : list (list Q * Z)) (a key : list Q)
    (freq : Z) :
  (key, freq) ∈ count_action frequencies a ->
  key = a \/ exists freq', (key, freq') ∈ frequencies.
Proof.
  induction frequencies as [|[key' freq'] frequencies IH]; cbn [count_action].
  - intros Hin. apply list_elem_of_singleton in Hin. injection Hin as -> _.
    left. reflexivity.
  - destruct (same_action key' a).
    + intros Hin. right. apply elem_of_cons in Hin as [Heq|Hin].
      * injection Heq as -> _. exists freq'. left.
      * exists freq. right. exact Hin.
    + intros Hin. apply elem_of_cons in Hin as [Heq|Hin].
      * injection Heq as -> ->. right. exists freq'. left.
      * destruct (IH Hin) as [->|(f & Hf)]; [left; reflexivity|].
        right. exists f. right. exact Hf.
Qed.

(** Every key of a [Counter] occurs in the counted list. *)
Lemma Counter_keys (actions : list (list Q)) (key : list Q) (freq : Z) :
  (key, freq) ∈ Counter actions -> key ∈ actions.
Proof.
  unfold Counter.
  assert (H : forall frequencies f,
             (key, f) ∈ foldl count_action frequencies actions ->
             key ∈ actions \/ exists f', (key, f') ∈ frequencies).
  { induction actions as [|a actions IH]; intros frequencies f Hin.
    - right. exists f. exact Hin.
    - cbn [foldl] in Hin. destruct (IH _ _ Hin) as [Hk|(f' & Hf')].
      + left. right. exact Hk.
      + destruct (count_action_keys _ _ _ _ Hf') as [->|Hold].
        * left. left.
        * right. exact Hold. }
  intros Hin. destruct (H [] freq Hin) as [Hk|(f' & Hf')]; [exact Hk|].
  inversion Hf'.
Qed.

Lemma Counter_nonempty (actions : list (list Q)) :
  actions <> [] -> Counter actions <> [].
Proof.
  unfold Counter.
  assert (Hstep : forall frequencies a, count_action frequencies a <> []).
  { intros [|[key freq] frequencies] a; cbn [count_action]; [discriminate|].
    destruct (same_action key a); discriminate. }
  assert (H : forall l frequencies,
             frequencies <> [] -> foldl count_action frequencies l <> []).
  { induction l as [|a l IH]; intros frequencies Hne; [exact Hne|].
    cbn [foldl]. apply IH, Hstep. }
  destruct actions as [|a actions]; [contradiction|].
  intros _. cbn [foldl]. apply H, Hstep.
Qed.

Lemma distribution_defined (frequencies : list (list Q * Z)) (num_rounds : Z) :
  num_rounds <> 0 ->
  distribution frequencies num_rounds
  = Return ((fun af : list Q * Z =>
               (af.1, inject_Z af.2 / inject_Z num_rounds)%Q) <$> frequencies).
Proof.
  intros Hn. unfold distribution.
  induction frequencies as [|[key freq] frequencies IH]; [reflexivity|].
  cbn [pgather]. unfold true_div at 1. rewrite bool_decide_eq_false_2 by exact Hn.
  cbn [pbind]. rewrite IH. reflexivity.
Qed.

Lemma distribution_of_nothing (frequencies : list (list Q * Z)) :
  frequencies <> [] ->
  distribution frequencies 0 = Throw ZeroDivisionError.
Proof.
  destruct frequencies as [|[key freq] frequencies]; [contradiction|].
  intros _. reflexivity.
Qed.

Lemma same_action_length (a b : list Q) :
  same_action a b = true -> length a = length b.
Proof.
  unfold same_action. intros H. apply andb_true_iff in H as [Hl _].
  apply Nat.eqb_eq. exact Hl.
Qed.

Lemma count_action_counts (frequencies : list (list Q * Z)) (a : list Q) :
  exists key freq,
    (key, freq) ∈ count_action frequencies a /\ length key = length a.
Proof.
  induction frequencies as [|[key freq] frequencies IH]; cbn [count_action].
  - exists a, 1. split; [left|reflexivity].
  - destruct (same_action key a) eqn:E.
    + exists key, (freq + 1). split; [left|apply same_action_length; exact E].
    + destruct IH as (key' & freq' & Hin & Hl).
      exists key', freq'. split; [right; exact Hin|exact Hl].
Qed.

Lemma count_action_keeps (frequencies : list (list Q * Z)) (a key : list Q)
    (freq : Z) :
  (key, freq) ∈ frequencies ->
  exists freq', (key, freq') ∈ count_action frequencies a.
Proof.
  induction frequencies as [|[key' freq'] frequencies IH]; intros Hin;
    [inversion Hin|].
  cbn [count_action]. apply elem_of_cons in Hin as [Heq|Hin].
  - injection Heq as -> ->. destruct (same_action key' a).
    + exists (freq' + 1). left.
    + exists freq'. left.
  - destruct (same_action key' a).
    + exists freq. right. exact Hin.
    + destruct (IH Hin) as (f & Hf). exists f. right. exact Hf.
Qed.

(** Every counted trajectory has a key of its length. *)
Lemma Counter_counts (actions : list (list Q)) (a : list Q) :
  a ∈ actions ->
  exists key freq, (key, freq) ∈ Counter actions /\ length key = length a.
Proof.
  unfold Counter.
  assert (Hkeep : forall l frequencies key freq,
             (key, freq) ∈ frequencies ->
             exists freq', (key, freq') ∈ foldl count_action frequencies l).
  { induction l as [|a' l IH]; intros frequencies key freq Hin.
    - exists freq. exact Hin.
    - cbn [foldl]. destruct (count_action_keeps frequencies a' key freq Hin)
        as (f & Hf). exact (IH _ _ _ Hf). }
  generalize (@nil (list Q * Z)).
  induction actions as [|a' actions IH]; intros frequencies Hin; [inversion Hin|].
  cbn [foldl]. apply elem_of_cons in Hin as [->|Hin].
  - destruct (count_action_counts frequencies a') as (key & freq & Hk & Hl).
    destruct (Hkeep actions _ key freq Hk) as (f & Hf).
    exists key, f. split; [exact Hf|exact Hl].
  - apply IH. exact Hin.
Qed.

Lemma total_cost_Ret_length (anow bnow : list Q) (kappa c : Q) :
  total_cost anow bnow kappa = Ret c -> (length anow <= length bnow)%nat.
Proof.
  intros Hc. destruct (decide (length anow <= length bnow)%nat) as [H|H];
    [exact H|].
  rewrite total_cost_beyond_opponent in Hc by lia. discriminate Hc.
Qed.

Lemma weigh_loop_defined (kappa : Q) (a1 : list Q) (freq1 : Q)
    (p2_dist : list (list Q * Q)) (cost : Q) :
  (forall a2 freq2, (a2, freq2) ∈ p2_dist -> (length a1 <= length a2)%nat) ->
  exists cost', foldM (weigh kappa a1 freq1) p2_dist cost = Ret cost'.
Proof.
  revert cost. induction p2_dist as [|[a2 freq2] p2_dist IH]; intros cost Hlen.
  - exists cost. reflexivity.
  - destruct (total_cost_defined a1 a2 kappa) as (c & Hc).
    { apply (Hlen a2 freq2). left. }
    destruct (IH (cost + c * (freq1 * freq2))%Q) as (cost' & Hcost').
    { intros a2' freq2' Hin. apply (Hlen a2' freq2'). right. exact Hin. }
    exists cost'. cbn [foldM]. unfold weigh at 1. cbn [fst snd].
    rewrite Hc. exact Hcost'.
Qed.

Lemma weigh_loop_Ret (kappa : Q) (a1 : list Q) (freq1 : Q)
    (p2_dist : list (list Q * Q)) (cost cost' : Q) :
  foldM (weigh kappa a1 freq1) p2_dist cost = Ret cost' ->
  forall a2 freq2, (a2, freq2) ∈ p2_dist -> (length a1 <= length a2)%nat.
Proof.
  revert cost. induction p2_dist as [|[a2' freq2'] p2_dist IH];
    intros cost Hret a2 freq2 Hin; [inversion Hin|].
  cbn [foldM] in Hret. apply rbind_Ret_inv in Hret as (c1 & Hw & Hrest).
  unfold weigh in Hw. cbn [fst snd] in Hw.
  apply rbind_Ret_inv in Hw as (c & Hc & _).
  apply elem_of_cons in Hin as [Heq|Hin].
  - injection Heq as -> ->. exact (total_cost_Ret_length _ _ _ _ Hc).
  - exact (IH _ Hrest a2 freq2 Hin).
Qed.

Lemma marginal_loop_defined (kappa : Q) (p1_dist p2_dist : list (list Q * Q))
    (cost : Q) :
  (forall a1 freq1 a2 freq2, (a1, freq1) ∈ p1_dist -> (a2, freq2) ∈ p2_dist ->
     (length a1 <= length a2)%nat) ->
  exists cost',
    foldM (fun cost af1 => foldM (weigh kappa af1.1 af1.2) p2_dist cost)
      p1_dist cost = Ret cost'.
Proof.
  revert cost. induction p1_dist as [|[a1 freq1] p1_dist IH]; intros cost Hlen.
  - exists cost. reflexivity.
  - destruct (weigh_loop_defined kappa a1 freq1 p2_dist cost) as (c & Hc).
    { intros a2 freq2 Hin. apply (Hlen a1 freq1 a2 freq2); [left|exact Hin]. }
    destruct (IH c) as (cost' & Hcost').
    { intros a1' freq1' a2 freq2 Hin. apply (Hlen a1' freq1'). right. exact Hin. }
    exists cost'. cbn [foldM fst snd]. rewrite Hc. exact Hcost'.
Qed.

Lemma marginal_loop_Ret (kappa : Q) (p1_dist p2_dist : list (list Q * Q))
    (cost cost' : Q) :
  foldM (fun cost af1 => foldM (weigh kappa af1.1 af1.2) p2_dist cost)
    p1_dist cost = Ret cost' ->
  forall a1 freq1 a2 freq2, (a1, freq1) ∈ p1_dist -> (a2, freq2) ∈ p2_dist ->
    (length a1 <= length a2)%nat.
Proof.
  revert cost. induction p1_dist as [|[a1' freq1'] p1_dist IH];
    intros cost Hret a1 freq1 a2 freq2 H1 H2; [inversion H1|].
  cbn [foldM fst snd] in Hret. apply rbind_Ret_inv in Hret as (c & Hinner & Hrest).
  apply elem_of_cons in H1 as [Heq|H1].
  - injection Heq as -> ->. exact (weigh_loop_Ret _ _ _ _ _ _ Hinner a2 freq2 H2).
  - exact (IH _ Hrest a1 freq1 a2 freq2 H1 H2).
Qed.

Lemma only_index_marginal_loop (kappa : Q) (p1_dist p2_dist : list (list Q * Q))
    (cost : Q) :
  only_index (foldM (fun cost af1 => foldM (weigh kappa af1.1 af1.2) p2_dist cost)
                p1_dist cost).
Proof.
  apply only_index_foldM. intros st af1.
  apply only_index_foldM. intros st' af2. unfold weigh.
  apply only_index_bind; [apply only_index_total_cost|].
  intros c. apply only_index_Ret.
Qed.

Lemma marginal_cost_defined (p1_actions p2_actions : list (list Q)) (kappa : Q) :
  p1_actions <> [] ->
  (forall a b, a ∈ p1_actions -> b ∈ p2_actions -> (length a <= length b)%nat) ->
  exists m, marginal_cost p1_actions p2_actions kappa = Return m.
Proof.
  intros Hne Hlen.
  assert (Hn : Z.of_nat (length p1_actions) <> 0).
  { destruct p1_actions; [contradiction|]. cbn [length]. lia. }
  unfold marginal_cost. rewrite !distribution_defined by exact Hn.
  cbn [pbind].
  destruct (marginal_loop_defined kappa
              ((fun af : list Q * Z =>
                  (af.1, inject_Z af.2 / inject_Z (Z.of_nat (length p1_actions)))%Q)
                 <$> Counter p1_actions)
              ((fun af : list Q * Z =>
                  (af.1, inject_Z af.2 / inject_Z (Z.of_nat (length p1_actions)))%Q)
                 <$> Counter p2_actions) 0)
    as (m & Hm).
  { intros a1 freq1 a2 freq2 H1 H2.
    apply list_elem_of_fmap in H1 as ([k1 f1] & Heq1 & H1).
    apply list_elem_of_fmap in H2 as ([k2 f2] & Heq2 & H2).
    injection Heq1 as -> _. injection Heq2 as -> _.
    apply Hlen; [exact (Counter_keys _ _ _ H1)|exact (Counter_keys _ _ _ H2)]. }
  exists m. rewrite Hm. reflexivity.
Qed.

(** X18. [marginal_cost] evaluates [total_cost] for the trajectories of
    player 1 against the trajectories of player 2 of all rounds, not
    only of the same round: for a non-empty history of player 1 it
    returns a value when no trajectory of player 1 is longer than a
    trajectory of player 2, and raises [IndexError] when one is. *)
Theorem marginal_cost_pairs_all_rounds
    (p1_actions p2_actions : list (list Q)) (kappa : Q) :
  p1_actions <> [] ->
  ((forall a b, a ∈ p1_actions -> b ∈ p2_actions -> (length a <= length b)%nat) ->
   exists m, marginal_cost p1_actions p2_actions kappa = Return m) /\
  ((exists a b, a ∈ p1_actions /\ b ∈ p2_actions /\ (length b < length a)%nat) ->
   marginal_cost p1_actions p2_actions kappa = Throw (CoreError IndexError)).
Proof.
  intros Hne. split; [apply marginal_cost_defined; exact Hne|].
  intros (a & b & Ha & Hb & Hlt).
  assert (Hn : Z.of_nat (length p1_actions) <> 0).
  { destruct p1_actions; [contradiction|]. cbn [length]. lia. }
  unfold marginal_cost. rewrite !distribution_defined by exact Hn.
  cbn [pbind].
  set (n := inject_Z (Z.of_nat (length p1_actions))).
  set (p1_dist := (fun af : list Q * Z => (af.1, inject_Z af.2 / n)%Q)
                    <$> Counter p1_actions).
  set (p2_dist := (fun af : list Q * Z => (af.1, inject_Z af.2 / n)%Q)
                    <$> Counter p2_actions).
  destruct (foldM (fun cost af1 => foldM (weigh kappa af1.1 af1.2) p2_dist cost)
              p1_dist 0%Q) as [m|e] eqn:E.
  - exfalso.
    destruct (Counter_counts p1_actions a Ha) as (k1 & f1 & Hk1 & Hl1).
    destruct (Counter_counts p2_actions b Hb) as (k2 & f2 & Hk2 & Hl2).
    assert (H : (length k1 <= length k2)%nat).
    { apply (marginal_loop_Ret kappa p1_dist p2_dist 0 m E
               k1 (inject_Z f1 / n)%Q k2 (inject_Z f2 / n)%Q).
      - apply list_elem_of_fmap. exists (k1, f1). split; [reflexivity|exact Hk1].
      - apply list_elem_of_fmap. exists (k2, f2). split; [reflexivity|exact Hk2]. }
    lia.
  - cbn [lift]. do 2 f_equal.
    exact (only_index_marginal_loop kappa p1_dist p2_dist 0 e E).
Qed.

Lemma marginal_cost_pairs_all_rounds_witness :
  ((forall a b, a ∈ [[1; 1]; [2; 0; 3]]%Q -> b ∈ [[1; 1; 0]; [0; 2]]%Q ->
      (length a <= length b)%nat) ->
   exists m, marginal_cost [[1; 1]; [2; 0; 3]]%Q [[1; 1; 0]; [0; 2]]%Q (1 # 2)
             = Return m) /\
  ((exists a b, a ∈ [[1; 1]; [2; 0; 3]]%Q /\ b ∈ [[1; 1; 0]; [0; 2]]%Q /\
                (length b < length a)%nat) ->
   marginal_cost [[1; 1]; [2; 0; 3]]%Q [[1; 1; 0]; [0; 2]]%Q (1 # 2)
   = Throw (CoreError IndexError)).
Proof.
  apply (marginal_cost_pairs_all_rounds [[1; 1]; [2; 0; 3]]%Q
           [[1; 1; 0]; [0; 2]]%Q (1 # 2)).
  discriminate.
Defined.

(** X19. Without rounds of player 1 the frequencies of player 2 are
    divided by zero: [marginal_cost] raises [ZeroDivisionError] when
    [p1_actions] is empty and [p2_actions] is not. *)
Theorem marginal_cost_without_rounds (p2_actions : list (list Q)) (kappa : Q) :
  p2_actions <> [] ->
  marginal_cost [] p2_actions kappa = Throw ZeroDivisionError.
Proof.
  intros Hne. unfold marginal_cost. cbn [length Counter foldl distribution pgather pbind].
  change (Z.of_nat 0) with 0.
  fold (distribution (Counter p2_actions) 0).
  rewrite (distribution_of_nothing _ (Counter_nonempty _ Hne)). reflexivity.
Qed.

Lemma marginal_cost_without_rounds_witness :
  marginal_cost [] [[1; 1]; [0; 2]]%Q (1 # 2) = Throw ZeroDivisionError.
Proof.
  apply (marginal_cost_without_rounds [[1; 1]; [0; 2]]%Q (1 # 2)). discriminate.
Defined.

(** * [dist_to_nash] *)





